(** * BettyAudioApp: control-rate mapping, hysteretic gate and effect graph

    A shallow embedding of [src/BettyAudioApp.hpp].

    Numeric model.  A C++ [float] is read as a real number and the
    arithmetic of the source ([+], [-], [*], [/], [fminf], [fmaxf],
    comparisons, [tanhf]) as the arithmetic of [R].  A [size_t] is an
    integer in [0, SIZE_MAX] with its wrap-around written out.

    The source computes in IEEE 754 binary32, where each operation rounds
    its result to the nearest [float].  The properties of the Value Mapper
    are stated so that they hold of the rounded operations as well: a
    result is compared with the exact value of its formula up to the
    tolerance [float_slack], and equalities are stated only where no
    rounding occurs.  NaN and the infinities are no real numbers:
    properties of sample values are stated for finite values.  The module
    [B32] gives the same functions on binary32 values bit for bit, NaN
    included; it evaluates the code at the inputs where rounding or NaN
    decides the result. *)

From Stdlib Require Import Reals Lra Lia ZArith List Bool Zfloor.
From Stdlib Require Import Floats.SpecFloat.
Import ListNotations.

Open Scope R_scope.

(** ** Numeric prelude *)

(** The type of the source's [float] values. *)
Abbreviation float := R (only parsing).

Definition fminf (a b : float) : float := Rmin a b.
Definition fmaxf (a b : float) : float := Rmax a b.

(** Comparisons of the source, as booleans. *)
Definition float_le (a b : float) : bool := if Rle_dec a b then true else false.
Definition float_lt (a b : float) : bool := if Rlt_dec a b then true else false.
Definition float_ge (a b : float) : bool := float_le b a.
Definition float_gt (a b : float) : bool := float_lt b a.

(** [size_t] of the target (a 32-bit microcontroller). *)
Definition SIZE_MAX : Z := (2 ^ 32 - 1)%Z.

(** [x + 1] on a [size_t]. *)
Definition size_t_succ (n : Z) : Z := ((n + 1) mod (SIZE_MAX + 1))%Z.

(** Truncation toward zero. *)
Definition Ztrunc (x : float) : Z :=
  if Rle_dec 0 x then Zfloor x else Zceil x.

(** [static_cast<size_t>(x)]: truncation toward zero.  Outside of
    [0, SIZE_MAX] the C++ conversion is undefined; the model saturates, as
    the conversion instruction of the target does. *)
Definition size_t_of_float (x : float) : Z :=
  Z.max 0 (Z.min SIZE_MAX (Ztrunc x)).

(** [static_cast<float>(n)] for a [size_t]. *)
Definition float_of_size_t (n : Z) : float := IZR n.




(** ** Value Mapper *)

(** The index computed by [MapToSeries] for a series of [size] entries
    (lines 25-35 of the source). *)
Definition MapToSeries_index (value : float) (size : Z) : Z :=
  let value := fmaxf 0 (fminf 1 value) in
  let segment_size := 1 / float_of_size_t size in
  let index := size_t_of_float (value / segment_size) in
  if (index >=? size)%Z then (size - 1)%Z else index.

(** [series[index]]; the default is never reached by [MapToSeries], see
    [MapToSeries_index_bounds]. *)
Definition at_index (series : list float) (index : Z) : float :=
  nth (Z.to_nat index) series 0.

Definition MapToSeries (value : float) (series : list float) : float :=
  let size := Z.of_nat (length series) in
  if (size =? 0)%Z then 0
  else if (size =? 1)%Z then at_index series 0
  else at_index series (MapToSeries_index value size).

(** The output range selected by an already clamped [bias]
    (lines 103-113 of the source). *)
Definition BiasedScale_range (bias : float) : float * float :=
  if float_le bias (1 / 2) then (0, bias + 1 / 2) else (bias - 1 / 2, 1).

Definition BiasedScale (value bias : float) : float :=
  let value := fmaxf 0 (fminf 1 value) in
  let bias := fmaxf 0 (fminf 1 bias) in
  let '(range_min, range_max) := BiasedScale_range bias in
  range_min + value * (range_max - range_min).

(** ** External collaborators

    The smoother and the DSP stages are included from files outside
    [src/]; the code under verification only calls them.  They are taken
    as parameters: a state type per object and a function per method. *)

(** [OnePoleSmoother<1>] (src/memllib/synth/OnePoleSmoother.hpp): built
    from a time in milliseconds and a sample rate; [Process] consumes one
    raw value and yields one smoothed value. *)
Class OnePoleSmoother1 : Type := {
  smoother1 : Type;
  smoother1_new : float -> float -> smoother1;
  smoother1_Process : smoother1 -> float -> smoother1 * float
}.

(** ** Hysteretic Gate *)

Section GateDefinitions.

Context {SM : OnePoleSmoother1}.

Record HysteresisSmoother : Type := mkHysteresisSmoother {
  sample_rate_ : float;
  hysteresis_time_ms_ : float;
  smoother_ : smoother1;
  current_flag_ : bool;
  pending_flag_ : bool;
  counter_ : Z;
  hysteresis_samples_ : Z
}.

(** The constructor (lines 43-51). *)
Definition HysteresisSmoother_new
    (sample_rate smoothing_time_ms hysteresis_time_ms : float)
  : HysteresisSmoother :=
  {| sample_rate_ := sample_rate;
     hysteresis_time_ms_ := hysteresis_time_ms;
     smoother_ := smoother1_new smoothing_time_ms sample_rate;
     current_flag_ := false;
     pending_flag_ := false;
     counter_ := 0;
     hysteresis_samples_ :=
       size_t_of_float (hysteresis_time_ms * (1 / 1000) * sample_rate) |}.

Definition with_smoother (g : HysteresisSmoother) (sm : smoother1) :=
  mkHysteresisSmoother (sample_rate_ g) (hysteresis_time_ms_ g) sm
    (current_flag_ g) (pending_flag_ g) (counter_ g) (hysteresis_samples_ g).
Definition with_current_flag (g : HysteresisSmoother) (b : bool) :=
  mkHysteresisSmoother (sample_rate_ g) (hysteresis_time_ms_ g) (smoother_ g)
    b (pending_flag_ g) (counter_ g) (hysteresis_samples_ g).
Definition with_pending_flag (g : HysteresisSmoother) (b : bool) :=
  mkHysteresisSmoother (sample_rate_ g) (hysteresis_time_ms_ g) (smoother_ g)
    (current_flag_ g) b (counter_ g) (hysteresis_samples_ g).
Definition with_counter (g : HysteresisSmoother) (n : Z) :=
  mkHysteresisSmoother (sample_rate_ g) (hysteresis_time_ms_ g) (smoother_ g)
    (current_flag_ g) (pending_flag_ g) n (hysteresis_samples_ g).

(** [HysteresisSmoother::Process] (lines 53-83): the object after the
    call and the returned flag. *)
Definition Process (g : HysteresisSmoother) (x : float)
  : HysteresisSmoother * bool :=
  let '(sm, smoothed) := smoother1_Process (smoother_ g) x in
  let g := with_smoother g sm in
  let target_flag := float_ge smoothed (1 / 2) in
  let g :=
    if negb (Bool.eqb target_flag (current_flag_ g)) then
      if Bool.eqb target_flag (pending_flag_ g) then
        let g := with_counter g (size_t_succ (counter_ g)) in
        if (counter_ g >=? hysteresis_samples_ g)%Z
        then with_counter (with_current_flag g target_flag) 0
        else g
      else with_counter (with_pending_flag g target_flag) 1
    else with_pending_flag (with_counter g 0) (current_flag_ g) in
  (g, current_flag_ g).

(** [target_flag] of a call: the smoothed input, discretized
    (lines 55-59). *)
Definition Process_target (g : HysteresisSmoother) (x : float) : bool :=
  float_ge (snd (smoother1_Process (smoother_ g) x)) (1 / 2).

(** The three stored fields the hysteresis works on, and the update of
    lines 61-80 as a function of them. *)
Definition gate_flags (g : HysteresisSmoother) : bool * bool * Z :=
  (current_flag_ g, pending_flag_ g, counter_ g).

Definition apply_hysteresis (hysteresis_samples : Z) (target_flag : bool)
    (st : bool * bool * Z) : bool * bool * Z :=
  let '(current_flag, pending_flag, counter) := st in
  if negb (Bool.eqb target_flag current_flag) then
    if Bool.eqb target_flag pending_flag then
      if (size_t_succ counter >=? hysteresis_samples)%Z
      then (target_flag, pending_flag, 0%Z)
      else (current_flag, pending_flag, size_t_succ counter)
    else (current_flag, target_flag, 1%Z)
  else (current_flag, current_flag, 0%Z).

(** The object after a sequence of calls, the flags returned by them
    and the [target_flag] of each call. *)
Definition run (g : HysteresisSmoother) (xs : list float)
  : HysteresisSmoother :=
  fold_left (fun g x => fst (Process g x)) xs g.

Fixpoint outputs (g : HysteresisSmoother) (xs : list float) : list bool :=
  match xs with
  | [] => []
  | x :: xs => snd (Process g x) :: outputs (fst (Process g x)) xs
  end.

Fixpoint targets (g : HysteresisSmoother) (xs : list float) : list bool :=
  match xs with
  | [] => []
  | x :: xs => Process_target g x :: targets (fst (Process g x)) xs
  end.

(** The invariant of the stored fields: the counter stays below the
    dwell length (or at 1), and it is zero exactly when no candidate
    differs from the current flag. *)
Definition flags_inv (hysteresis_samples : Z) (st : bool * bool * Z) : Prop :=
  let '(current_flag, pending_flag, counter) := st in
  (0 <= counter <= Z.max 1 (hysteresis_samples - 1))%Z /\
  (counter = 0%Z <-> pending_flag = current_flag).

Definition gate_inv (g : HysteresisSmoother) : Prop :=
  (0 <= hysteresis_samples_ g <= SIZE_MAX)%Z /\
  flags_inv (hysteresis_samples_ g) (gate_flags g).

(** The call that follows the calls on [xs], on input [x], changes the
    observed flag. *)
Definition changed_at (g0 : HysteresisSmoother) (xs : list float) (x : float)
  : Prop :=
  current_flag_ (run g0 (xs ++ [x])) <> current_flag_ (run g0 xs).

End GateDefinitions.

Section GateObservers.

Context {SM : OnePoleSmoother1}.

(** The number of calls of a run that return a flag other than the flag
    held before the call. *)
Fixpoint count_changes (g : HysteresisSmoother) (xs : list float) : nat :=
  match xs with
  | [] => 0
  | x :: xs =>
      (if Bool.eqb (snd (Process g x)) (current_flag_ g) then 0 else 1)
      + count_changes (fst (Process g x)) xs
  end.

(** The number of calls a change of the flag takes at least: the test of
    line 66 is only reached from the second call of a candidate on. *)
Definition min_dwell (g : HysteresisSmoother) : Z :=
  Z.max 2 (hysteresis_samples_ g).

End GateObservers.

(** Modelled from the spec: the Exponential Smoother of section 4.2, one
    channel ([OnePoleSmoother<1>], whose source file is not under [src/]).
    A one-pole low-pass filter toward the raw input: the time constant is
    the time to reach about 63% of a step, so the pole is
    [exp (-1 / (time * sample_rate))]; the output starts at 0. *)
Record OnePole : Type := mkOnePole {
  pole : float;
  y_ : float
}.

(** Modelled from the spec: the constructor of [OnePoleSmoother<1>], from
    the time constant in milliseconds and the sample rate. *)
Definition OnePole_new (time_ms sample_rate : float) : OnePole :=
  {| pole := exp (- (1 / (time_ms * (1 / 1000) * sample_rate))); y_ := 0 |}.

(** Modelled from the spec: [OnePoleSmoother<1>::Process], one step of
    the filter toward the raw input [x]. *)
Definition OnePole_Process (s : OnePole) (x : float) : OnePole * float :=
  let y := pole s * y_ s + (1 - pole s) * x in
  ({| pole := pole s; y_ := y |}, y).

(** Modelled from the spec: [OnePoleSmoother<1>] as the one-pole filter
    above. *)
Definition OnePole_smoother : OnePoleSmoother1 :=
  {| smoother1 := OnePole;
     smoother1_new := OnePole_new;
     smoother1_Process := OnePole_Process |}.

(** A smoother that passes its input through, for examples that are only
    about the hysteresis. *)
Definition passthrough_smoother : OnePoleSmoother1 :=
  {| smoother1 := unit;
     smoother1_new := fun _ _ => tt;
     smoother1_Process := fun s x => (s, x) |}.

(** ** Effect Graph *)

Record stereosample_t : Type := mkStereo {
  sample_L : float;
  sample_R : float
}.

(** [BettyAudioApp::ParamDef] (lines 122-130); also the view [float v[kN_Params]]
    of the union of lines 153-156. *)
Record ParamDef : Type := mkParamDef {
  which_shift : float;
  shift : float;
  shift2 : float;
  dlyfeedback : float;
  wahlevel : float;
  wahdrywet : float;
  wahwah : float
}.

(** [sizeof(ParamDef) / sizeof(float)]. *)
Definition kN_Params : nat := 7.

(** The other collaborators of the application: the smoother over
    [kN_Params] channels, the two pitch shifters, the auto-wah, the delay
    line and the DC blocker, each with its default-constructed object and
    the methods called here; [kSampleRate] (src/memllib/PicoDefs.hpp). *)
Class Collaborators : Type := {
  smootherN : Type;
  smootherN_new : float -> float -> smootherN;
  smootherN_Process : smootherN -> ParamDef -> smootherN * ParamDef;
  PitchShifter : Type;
  PitchShifter_default : PitchShifter;
  PitchShifter_SetTransposition : PitchShifter -> float -> PitchShifter;
  PitchShifter_Process : PitchShifter -> float -> PitchShifter * float;
  Autowah : Type;
  Autowah_default : Autowah;
  Autowah_SetLevel : Autowah -> float -> Autowah;
  Autowah_SetDryWet : Autowah -> float -> Autowah;
  Autowah_SetWah : Autowah -> float -> Autowah;
  Autowah_Process : Autowah -> float -> Autowah * float;
  maxiDelayline : Type;
  maxiDelayline_default : maxiDelayline;
  maxiDelayline_play : maxiDelayline -> float -> Z -> float -> maxiDelayline * float;
  maxiDCBlocker : Type;
  maxiDCBlocker_default : maxiDCBlocker;
  maxiDCBlocker_play : maxiDCBlocker -> float -> float -> maxiDCBlocker * float;
  kSampleRate : float
}.

(** [tanhf]. *)
Definition tanhf (x : float) : float := tanh x.

Section AppDefinitions.

Context {SM : OnePoleSmoother1} {EXT : Collaborators}.

Record BettyAudioApp : Type := mkBettyAudioApp {
  neuralNetOutputs : list float;
  dcb : maxiDCBlocker;
  pitchshifter_ : PitchShifter;
  pitchshifter2_ : PitchShifter;
  wah_ : Autowah;
  dl_ : maxiDelayline;
  smoother : smootherN;
  smoother_pitchshift_switch : HysteresisSmoother;
  pitchbias_smoother : smoother1
}.

Definition kDelaySeconds : float := 1.
Definition kDLineLength : Z := size_t_of_float (kDelaySeconds * kSampleRate).
Definition kDLineTap : Z := ((kDLineLength - 2) mod (SIZE_MAX + 1))%Z.

(** The constructor and the member initializers (lines 133-136, 228). *)
Definition BettyAudioApp_new : BettyAudioApp :=
  {| neuralNetOutputs := repeat 0 kN_Params;
     dcb := maxiDCBlocker_default;
     pitchshifter_ := PitchShifter_default;
     pitchshifter2_ := PitchShifter_default;
     wah_ := Autowah_default;
     dl_ := maxiDelayline_default;
     smoother := smootherN_new 150 kSampleRate;
     smoother_pitchshift_switch := HysteresisSmoother_new kSampleRate 400 150;
     pitchbias_smoother := smoother1_new 150 kSampleRate |}.

(** [ProcessParams] (lines 208-211). *)
Definition ProcessParams (a : BettyAudioApp) (params : list float)
  : BettyAudioApp :=
  {| neuralNetOutputs := params;
     dcb := dcb a;
     pitchshifter_ := pitchshifter_ a;
     pitchshifter2_ := pitchshifter2_ a;
     wah_ := wah_ a;
     dl_ := dl_ a;
     smoother := smoother a;
     smoother_pitchshift_switch := smoother_pitchshift_switch a;
     pitchbias_smoother := pitchbias_smoother a |}.

(** The [kN_Params] floats that [smoother.Process] reads at
    [neuralNetOutputs.data()] (line 157).  [None] when the vector holds
    fewer: the read is then out of the bounds of its buffer. *)
Definition read_params (buffer : list float) : option ParamDef :=
  match buffer with
  | v0 :: v1 :: v2 :: v3 :: v4 :: v5 :: v6 :: _ =>
      Some (mkParamDef v0 v1 v2 v3 v4 v5 v6)
  | _ => None
  end.

(** The two parameterizations of the pitch shifters and their mix
    weights (lines 163-176): the shifters after the setter calls, then
    [mix_pitch1] and [mix_pitch2]. *)
Definition pitch_mode (smoothed_switch : bool) (p : ParamDef)
    (ps1 ps2 : PitchShifter) : PitchShifter * PitchShifter * float * float :=
  if smoothed_switch then
    let pitchshift_transpose := MapToSeries (shift p) [2; 5; 7; 10; 12] in
    (PitchShifter_SetTransposition ps1 pitchshift_transpose, ps2, 1, 0)
  else
    let third_down := if float_gt (shift p) (1 / 2) then -9 else -8 in
    let fifth_down := if float_gt (shift2 p) (1 / 2) then -7 else -7 in
    (PitchShifter_SetTransposition ps1 third_down,
     PitchShifter_SetTransposition ps2 fifth_down, 1 / 2, 1 / 2).

(** Lines 178-180. *)
Definition configure_wah (w : Autowah) (p : ParamDef) : Autowah :=
  let w := Autowah_SetLevel w (wahlevel p) in
  let w := Autowah_SetDryWet w (wahdrywet p * 100) in
  Autowah_SetWah w (wahwah p).

(** The signal path (lines 184-196) through the configured stages. *)
Definition signal_path (x : stereosample_t)
    (dl : maxiDelayline) (w : Autowah) (ps1 ps2 : PitchShifter)
    (mix_pitch1 mix_pitch2 : float) (dc : maxiDCBlocker)
  : maxiDelayline * Autowah * PitchShifter * PitchShifter * maxiDCBlocker
    * stereosample_t :=
  let y := sample_L x + sample_R x in
  let '(dl, dly) := maxiDelayline_play dl y kDLineTap 0 in
  let '(w, dly) := Autowah_Process w dly in
  let '(ps1, out1) := PitchShifter_Process ps1 dly in
  let shift1 := out1 * mix_pitch1 in
  let '(ps2, out2) := PitchShifter_Process ps2 dly in
  let shift2 := out2 * mix_pitch2 in
  let '(dc, dly) := maxiDCBlocker_play dc (shift1 + shift2) (995 / 1000) in
  let y := y + dly * (1 / 2) in
  let y := tanhf y in
  (dl, w, ps1, ps2, dc, mkStereo y y).


(** [ProcessInline] (lines 148-197).  [pitch_bias] is the value read
    from the volatile of that name at line 150.  The result is [None]
    when the pass reads out of the bounds of [neuralNetOutputs]. *)
Definition ProcessInline (a : BettyAudioApp) (pitch_bias : float)
    (x : stereosample_t) : option (BettyAudioApp * stereosample_t) :=
  let '(pbs, raw_pitch_bias) :=
    smoother1_Process (pitchbias_smoother a) pitch_bias in
  match read_params (neuralNetOutputs a) with
  | None => None
  | Some raw =>
      let '(sm, p) := smootherN_Process (smoother a) raw in
      let biased_switch := BiasedScale (which_shift p) raw_pitch_bias in
      let '(gate, smoothed_switch) :=
        Process (smoother_pitchshift_switch a) biased_switch in
      let '(ps1, ps2, mix_pitch1, mix_pitch2) :=
        pitch_mode smoothed_switch p (pitchshifter_ a) (pitchshifter2_ a) in
      let w := configure_wah (wah_ a) p in
      let '(dl, w, ps1, ps2, dc, out) :=
        signal_path x (dl_ a) w ps1 ps2 mix_pitch1 mix_pitch2 (dcb a) in
      Some ({| neuralNetOutputs := neuralNetOutputs a;
               dcb := dc;
               pitchshifter_ := ps1;
               pitchshifter2_ := ps2;
               wah_ := w;
               dl_ := dl;
               smoother := sm;
               smoother_pitchshift_switch := gate;
               pitchbias_smoother := pbs |}, out)
  end.

(** The smoothed parameters and the gate's flag of one pass, as
    [ProcessInline] computes them (lines 150-162). *)
Definition pass_params (a : BettyAudioApp) : option ParamDef :=
  option_map (fun raw => snd (smootherN_Process (smoother a) raw))
    (read_params (neuralNetOutputs a)).

Definition pass_switch (a : BettyAudioApp) (pitch_bias : float)
    (p : ParamDef) : bool :=
  let raw_pitch_bias :=
    snd (smoother1_Process (pitchbias_smoother a) pitch_bias) in
  snd (Process (smoother_pitchshift_switch a)
         (BiasedScale (which_shift p) raw_pitch_bias)).

End AppDefinitions.


(** The transposition of the single-shifter mode as a table of the shift
    parameter: five equal steps over [0,1]. *)
Definition single_mode_transpose (shift_param : float) : float :=
  if float_lt shift_param (1 / 5) then 2
  else if float_lt shift_param (2 / 5) then 5
  else if float_lt shift_param (3 / 5) then 7
  else if float_lt shift_param (4 / 5) then 10
  else 12.

Section AppRuns.

Context {SM : OnePoleSmoother1} {EXT : Collaborators}.

(** The calls the application receives once set up: a control update
    ([ProcessParams]) or one audio sample ([ProcessInline], with the value
    of [pitch_bias] it reads). *)
Inductive AppCall : Type :=
| CallProcessParams (params : list float)
| CallProcessInline (pitch_bias : float) (x : stereosample_t).

(** The application after a sequence of calls, with the samples returned;
    [None] when a pass reads out of the bounds of the stored vector. *)
Fixpoint app_run (a : BettyAudioApp) (calls : list AppCall)
  : option (BettyAudioApp * list stereosample_t) :=
  match calls with
  | [] => Some (a, [])
  | CallProcessParams params :: calls => app_run (ProcessParams a params) calls
  | CallProcessInline pitch_bias x :: calls =>
      match ProcessInline a pitch_bias x with
      | None => None
      | Some (a', out) =>
          match app_run a' calls with
          | None => None
          | Some (a'', outs) => Some (a'', out :: outs)
          end
      end
  end.

Definition is_sample (c : AppCall) : bool :=
  match c with
  | CallProcessInline _ _ => true
  | CallProcessParams _ => false
  end.

Definition count_samples (calls : list AppCall) : nat :=
  length (filter is_sample calls).

(** Every vector handed to [ProcessParams] holds [kN_Params] floats or
    more. *)
Definition params_long_enough (calls : list AppCall) : Prop :=
  Forall (fun c => match c with
                   | CallProcessParams params => (kN_Params <= length params)%nat
                   | CallProcessInline _ _ => True
                   end) calls.

(** The vector stored after a sequence of calls starting with [stored]. *)
Definition last_params (stored : list float) (calls : list AppCall)
  : list float :=
  fold_left (fun stored c => match c with
                             | CallProcessParams params => params
                             | CallProcessInline _ _ => stored
                             end) calls stored.

(** The value a pass feeds to the gate (lines 150-162). *)
Definition pass_gate_input (a : BettyAudioApp) (pitch_bias : float)
  : option float :=
  option_map
    (fun p => BiasedScale (which_shift p)
                (snd (smoother1_Process (pitchbias_smoother a) pitch_bias)))
    (pass_params a).

(** The values fed to the gate by the passes of a sequence of calls. *)
Fixpoint gate_inputs (a : BettyAudioApp) (calls : list AppCall) : list float :=
  match calls with
  | [] => []
  | CallProcessParams params :: calls =>
      gate_inputs (ProcessParams a params) calls
  | CallProcessInline pitch_bias x :: calls =>
      match ProcessInline a pitch_bias x, pass_gate_input a pitch_bias with
      | Some (a', _), Some s => s :: gate_inputs a' calls
      | _, _ => []
      end
  end.

End AppRuns.

(** Stand-ins for the collaborators, for concrete runs of the effect
    graph: each stage passes its input through; a pitch shifter's state
    is the transposition last set, the auto-wah's state its three
    settings. *)
Definition demo_collaborators : Collaborators :=
  {| smootherN := unit;
     smootherN_new := fun _ _ => tt;
     smootherN_Process := fun s p => (s, p);
     PitchShifter := float;
     PitchShifter_default := 0;
     PitchShifter_SetTransposition := fun _ t => t;
     PitchShifter_Process := fun ps x => (ps, x);
     Autowah := float * float * float;
     Autowah_default := (0, 0, 0);
     Autowah_SetLevel := fun '(_, d, w) l => (l, d, w);
     Autowah_SetDryWet := fun '(l, _, w) d => (l, d, w);
     Autowah_SetWah := fun '(l, d, _) w => (l, d, w);
     Autowah_Process := fun w x => (w, x);
     maxiDelayline := unit;
     maxiDelayline_default := tt;
     maxiDelayline_play := fun dl x _ _ => (dl, x);
     maxiDCBlocker := unit;
     maxiDCBlocker_default := tt;
     maxiDCBlocker_play := fun dc x _ => (dc, x);
     kSampleRate := 48000 |}.

(** ** Binary32 arithmetic

    The values and operations of the source in IEEE 754 binary32, bit for
    bit: [spec_float] with a significand of 24 bits, round to nearest
    even, NaN and the infinities included.  The functions below are the
    source's, on these values; they are executable. *)
Module B32.

Definition prec : Z := 24.
Definition emax : Z := 128.

Definition add : spec_float -> spec_float -> spec_float := SFadd prec emax.
Definition sub : spec_float -> spec_float -> spec_float := SFsub prec emax.
Definition mul : spec_float -> spec_float -> spec_float := SFmul prec emax.
Definition div : spec_float -> spec_float -> spec_float := SFdiv prec emax.
Definition le (a b : spec_float) : bool := SFleb a b.
Definition lt (a b : spec_float) : bool := SFltb a b.

Definition is_nan (a : spec_float) : bool :=
  match a with
  | S754_nan => true
  | _ => false
  end.

(** [static_cast<float>(n)], and the literals [0.0f], [1.0f], [0.5f]. *)
Definition of_Z (n : Z) : spec_float := binary_normalize prec emax n 0 false.
Definition zero : spec_float := S754_zero false.
Definition one : spec_float := of_Z 1.
Definition half : spec_float := div one (of_Z 2).

(** [fminf] and [fmaxf]: a NaN argument is ignored. *)
Definition fminf (a b : spec_float) : spec_float :=
  if is_nan a then b else if is_nan b then a else if lt b a then b else a.
Definition fmaxf (a b : spec_float) : spec_float :=
  if is_nan a then b else if is_nan b then a else if lt a b then b else a.

(** [static_cast<size_t>(a)]: truncation, saturating outside of
    [0, SIZE_MAX] as [size_t_of_float] does. *)
Definition to_size_t (a : spec_float) : Z :=
  match a with
  | S754_finite false m e =>
      Z.min SIZE_MAX
        match e with
        | Zneg p => Z.shiftr (Zpos m) (Zpos p)
        | _ => Z.shiftl (Zpos m) e
        end
  | S754_infinity false => SIZE_MAX
  | _ => 0%Z
  end.


(** [MapToSeries] (lines 21-38). *)
Definition MapToSeries (value : spec_float) (series : list spec_float)
  : spec_float :=
  let size := Z.of_nat (length series) in
  if (size =? 0)%Z then zero
  else if (size =? 1)%Z then nth 0 series zero
  else
    let value := fmaxf zero (fminf one value) in
    let segment_size := div one (of_Z size) in
    let index := to_size_t (div value segment_size) in
    let index := if (index >=? size)%Z then (size - 1)%Z else index in
    nth (Z.to_nat index) series zero.

(** [BiasedScale] (lines 96-116). *)
Definition BiasedScale (value bias : spec_float) : spec_float :=
  let value := fmaxf zero (fminf one value) in
  let bias := fmaxf zero (fminf one bias) in
  let '(range_min, range_max) :=
    if le bias half then (zero, add bias half) else (sub bias half, one) in
  add range_min (mul value (sub range_max range_min)).

Record stereosample_t : Type := mkStereo {
  sample_L : spec_float;
  sample_R : spec_float
}.

(** The stages of the signal path and [tanhf] of the C library, on
    binary32 values.  Of [tanhf] only its value at NaN is fixed here:
    NaN, as the C standard has it. *)
Class Collaborators : Type := {
  PitchShifter : Type;
  PitchShifter_Process : PitchShifter -> spec_float -> PitchShifter * spec_float;
  Autowah : Type;
  Autowah_Process : Autowah -> spec_float -> Autowah * spec_float;
  maxiDelayline : Type;
  maxiDelayline_play :
    maxiDelayline -> spec_float -> Z -> spec_float -> maxiDelayline * spec_float;
  maxiDCBlocker : Type;
  maxiDCBlocker_play :
    maxiDCBlocker -> spec_float -> spec_float -> maxiDCBlocker * spec_float;
  kSampleRate : spec_float;
  tanhf : spec_float -> spec_float;
  tanhf_nan : tanhf S754_nan = S754_nan
}.

(** Lines 222-224. *)
Definition kDLineLength {EXT : Collaborators} : Z :=
  to_size_t (mul one kSampleRate).
Definition kDLineTap {EXT : Collaborators} : Z :=
  ((kDLineLength - 2) mod (SIZE_MAX + 1))%Z.

(** The signal path (lines 184-196). *)
Definition signal_path {EXT : Collaborators} (x : stereosample_t)
    (dl : maxiDelayline) (w : Autowah) (ps1 ps2 : PitchShifter)
    (mix_pitch1 mix_pitch2 : spec_float) (dc : maxiDCBlocker)
  : maxiDelayline * Autowah * PitchShifter * PitchShifter * maxiDCBlocker
    * stereosample_t :=
  let y := add (sample_L x) (sample_R x) in
  let '(dl, dly) := maxiDelayline_play dl y kDLineTap zero in
  let '(w, dly) := Autowah_Process w dly in
  let '(ps1, out1) := PitchShifter_Process ps1 dly in
  let shift1 := mul out1 mix_pitch1 in
  let '(ps2, out2) := PitchShifter_Process ps2 dly in
  let shift2 := mul out2 mix_pitch2 in
  let '(dc, dly) :=
    maxiDCBlocker_play dc (add shift1 shift2) (div (of_Z 995) (of_Z 1000)) in
  let y := add y (mul dly half) in
  let y := tanhf y in
  (dl, w, ps1, ps2, dc, mkStereo y y).

(** Stand-ins for concrete runs: each stage passes its input through, and
    [tanhf] is replaced by a clip to [-1, 1] that keeps NaN. *)
Definition clip (a : spec_float) : spec_float :=
  match a with
  | S754_nan => S754_nan
  | _ => if lt one a then one
         else if lt a (SFopp one) then SFopp one else a
  end.

Definition demo_collaborators : Collaborators :=
  {| PitchShifter := unit;
     PitchShifter_Process := fun ps a => (ps, a);
     Autowah := unit;
     Autowah_Process := fun w a => (w, a);
     maxiDelayline := unit;
     maxiDelayline_play := fun dl a _ _ => (dl, a);
     maxiDCBlocker := unit;
     maxiDCBlocker_play := fun dc a _ => (dc, a);
     kSampleRate := of_Z 48000;
     tanhf := clip;
     tanhf_nan := eq_refl |}.

End B32.

(** * Properties *)

(** ** Numeric prelude *)

Lemma float_le_true (a b : float) : float_le a b = true <-> a <= b.
Proof.
  unfold float_le. destruct (Rle_dec a b); split; intros; try easy; lra.
Qed.

Lemma float_le_false (a b : float) : float_le a b = false <-> b < a.
Proof.
  unfold float_le. destruct (Rle_dec a b); split; intros; try easy; lra.
Qed.

Lemma float_lt_true (a b : float) : float_lt a b = true <-> a < b.
Proof.
  unfold float_lt. destruct (Rlt_dec a b); split; intros; try easy; lra.
Qed.

Lemma float_lt_false (a b : float) : float_lt a b = false <-> b <= a.
Proof.
  unfold float_lt. destruct (Rlt_dec a b); split; intros; try easy; lra.
Qed.





Lemma clamp01_bounds (x : float) : 0 <= fmaxf 0 (fminf 1 x) <= 1.
Proof.
  unfold fmaxf, fminf, Rmax, Rmin.
  destruct (Rle_dec 1 x); destruct (Rle_dec 0 _); lra.
Qed.

Lemma clamp01_id (x : float) : 0 <= x <= 1 -> fmaxf 0 (fminf 1 x) = x.
Proof.
  intros H. unfold fmaxf, fminf, Rmax, Rmin.
  destruct (Rle_dec 1 x); destruct (Rle_dec 0 _); lra.
Qed.

Lemma Ztrunc_nonneg (x : float) : 0 <= x -> Ztrunc x = Zfloor x.
Proof. intros H. unfold Ztrunc. destruct (Rle_dec 0 x); [reflexivity | lra]. Qed.

Lemma size_t_of_float_range (x : float) :
  (0 <= size_t_of_float x <= SIZE_MAX)%Z.
Proof. unfold size_t_of_float, SIZE_MAX. lia. Qed.

Lemma size_t_of_float_floor (x : float) (z : Z) :
  (0 <= z <= SIZE_MAX)%Z -> IZR z <= x < IZR z + 1 -> size_t_of_float x = z.
Proof.
  intros Hz Hx. unfold size_t_of_float.
  assert (0 <= x) by (assert (0 <= IZR z) by (apply IZR_le; lia); lra).
  rewrite Ztrunc_nonneg by assumption.
  rewrite (Zfloor_eq z x Hx). lia.
Qed.

(** ** Value Mapper *)

Lemma MapToSeries_index_bounds (value : float) (size : Z) :
  (1 <= size)%Z -> (0 <= MapToSeries_index value size < size)%Z.
Proof.
  intros Hs. unfold MapToSeries_index.
  set (q := _ / _).
  pose proof (size_t_of_float_range q) as Hq.
  destruct (size_t_of_float q >=? size)%Z eqn:E; lia.
Qed.

Lemma MapToSeries_index_bucket (value : float) (size : Z) :
  (1 <= size <= SIZE_MAX)%Z ->
  let v := fmaxf 0 (fminf 1 value) in
  let k := MapToSeries_index value size in
  IZR k / IZR size <= v /\
  (v < (IZR k + 1) / IZR size \/ (v = 1 /\ k = (size - 1)%Z)).
Proof.
  intros Hs v k.
  assert (Hv : 0 <= v <= 1) by apply clamp01_bounds.
  assert (HM : 1 <= IZR size) by (apply IZR_le; lia).
  subst k. unfold MapToSeries_index. fold v.
  unfold float_of_size_t.
  replace (v / (1 / IZR size)) with (v * IZR size) by (field; lra).
  remember (v * IZR size) as q eqn:Hqd.
  assert (Hq : 0 <= q <= IZR size) by nra.
  pose proof (Zfloor_bound q) as Hf.
  assert (Hf0 : (0 <= Zfloor q)%Z) by (apply Zfloor_lub; simpl; lra).
  assert (Hf1 : (Zfloor q <= size)%Z) by (apply le_IZR; lra).
  rewrite (size_t_of_float_floor q (Zfloor q)) by (try lia; exact Hf).
  destruct (Zfloor q >=? size)%Z eqn:E.
  - assert (Zfloor q = size) by lia.
    assert (v = 1) by (rewrite H in Hf; nra).
    split.
    + rewrite minus_IZR. apply Rle_trans with 1; [| lra].
      apply Rmult_le_reg_r with (IZR size); [lra |].
      unfold Rdiv. rewrite Rmult_assoc, Rinv_l by lra. lra.
    + right. split; [assumption | reflexivity].
  - split.
    + apply Rmult_le_reg_r with (IZR size); [lra |].
      unfold Rdiv. rewrite Rmult_assoc, Rinv_l by lra. lra.
    + left. apply Rmult_lt_reg_r with (IZR size); [lra |].
      unfold Rdiv. rewrite Rmult_assoc, Rinv_l by lra. lra.
Qed.



Lemma MapToSeries_nonempty (value : float) (series : list float) :
  series <> [] ->
  MapToSeries value series =
  at_index series (MapToSeries_index value (Z.of_nat (length series))) \/
  (length series = 1%nat /\ MapToSeries value series = at_index series 0).
Proof.
  intros Hne. unfold MapToSeries.
  destruct series as [| x xs]; [congruence |].
  destruct (Z.of_nat (length (x :: xs)) =? 0)%Z eqn:E0; [simpl in E0; lia |].
  destruct (Z.of_nat (length (x :: xs)) =? 1)%Z eqn:E1.
  - right. split; [lia | reflexivity].
  - left. reflexivity.
Qed.





(** The series of the application at one third: the second bucket. *)
Example MapToSeries_one_third : MapToSeries (1 / 3) [2; 5; 7; 10; 12] = 5.
Proof.
  unfold MapToSeries. simpl Z.of_nat. simpl Z.eqb. cbv iota.
  unfold MapToSeries_index, float_of_size_t.
  rewrite clamp01_id by lra.
  rewrite (size_t_of_float_floor _ 1) by (unfold SIZE_MAX; simpl; lra || lia).
  reflexivity.
Qed.


Lemma BiasedScale_range_high (b : float) :
  1 / 2 < b -> BiasedScale_range b = (b - 1 / 2, 1).
Proof.
  intros H. unfold BiasedScale_range.
  destruct (float_le b (1 / 2)) eqn:E; [| reflexivity].
  apply float_le_true in E. lra.
Qed.

Lemma BiasedScale_affine (value bias : float) :
  let v := fmaxf 0 (fminf 1 value) in
  let b := fmaxf 0 (fminf 1 bias) in
  BiasedScale value bias =
  fst (BiasedScale_range b)
  + v * (snd (BiasedScale_range b) - fst (BiasedScale_range b)).
Proof.
  intros v b. unfold BiasedScale. fold b. fold v.
  destruct (BiasedScale_range b) as [lo hi]. reflexivity.
Qed.











(** ** Hysteretic Gate *)

Section GateProperties.

Context {SM : OnePoleSmoother1}.

Lemma size_t_succ_small (n : Z) :
  (0 <= n < SIZE_MAX)%Z -> size_t_succ n = (n + 1)%Z.
Proof. intros H. unfold size_t_succ. apply Z.mod_small. lia. Qed.

Lemma Process_flags (g : HysteresisSmoother) (x : float) :
  gate_flags (fst (Process g x)) =
  apply_hysteresis (hysteresis_samples_ g) (Process_target g x) (gate_flags g).
Proof.
  unfold Process, Process_target, apply_hysteresis, gate_flags.
  destruct (smoother1_Process (smoother_ g) x) as [sm smoothed]. simpl.
  destruct (negb (Bool.eqb _ (current_flag_ g))); [| reflexivity].
  destruct (Bool.eqb _ (pending_flag_ g)); [| reflexivity].
  simpl. destruct (_ >=? _)%Z; reflexivity.
Qed.

Lemma Process_output (g : HysteresisSmoother) (x : float) :
  snd (Process g x) = current_flag_ (fst (Process g x)).
Proof.
  unfold Process. destruct (smoother1_Process (smoother_ g) x). reflexivity.
Qed.

Lemma Process_hysteresis_samples (g : HysteresisSmoother) (x : float) :
  hysteresis_samples_ (fst (Process g x)) = hysteresis_samples_ g.
Proof.
  unfold Process.
  destruct (smoother1_Process (smoother_ g) x) as [sm smoothed]. simpl.
  destruct (negb _); [| reflexivity].
  destruct (Bool.eqb _ _); [| reflexivity].
  simpl. destruct (_ >=? _)%Z; reflexivity.
Qed.

Lemma Process_smoother (g : HysteresisSmoother) (x : float) :
  smoother_ (fst (Process g x)) = fst (smoother1_Process (smoother_ g) x).
Proof.
  unfold Process.
  destruct (smoother1_Process (smoother_ g) x) as [sm smoothed]. simpl.
  destruct (negb _); [| reflexivity].
  destruct (Bool.eqb _ _); [| reflexivity].
  simpl. destruct (_ >=? _)%Z; reflexivity.
Qed.

Lemma run_app (g : HysteresisSmoother) (xs ys : list float) :
  run g (xs ++ ys) = run (run g xs) ys.
Proof. unfold run. apply fold_left_app. Qed.

Lemma run_snoc (g : HysteresisSmoother) (xs : list float) (x : float) :
  run g (xs ++ [x]) = fst (Process (run g xs) x).
Proof. rewrite run_app. reflexivity. Qed.

Lemma run_hysteresis_samples (g : HysteresisSmoother) (xs : list float) :
  hysteresis_samples_ (run g xs) = hysteresis_samples_ g.
Proof.
  revert g. induction xs as [| x xs IH]; intros g; [reflexivity |].
  change (run g (x :: xs)) with (run (fst (Process g x)) xs).
  rewrite IH. apply Process_hysteresis_samples.
Qed.

Lemma targets_app (g : HysteresisSmoother) (xs ys : list float) :
  targets g (xs ++ ys) = targets g xs ++ targets (run g xs) ys.
Proof.
  revert g. induction xs as [| x xs IH]; intros g; [reflexivity |].
  simpl. rewrite IH. reflexivity.
Qed.

Lemma targets_length (g : HysteresisSmoother) (xs : list float) :
  length (targets g xs) = length xs.
Proof.
  revert g. induction xs as [| x xs IH]; intros g; [reflexivity |].
  simpl. rewrite IH. reflexivity.
Qed.

Lemma new_flags (sample_rate smoothing_time_ms hysteresis_time_ms : float) :
  gate_flags (HysteresisSmoother_new sample_rate smoothing_time_ms
                hysteresis_time_ms) = (false, false, 0%Z).
Proof. reflexivity. Qed.

Lemma new_hysteresis_samples_range
    (sample_rate smoothing_time_ms hysteresis_time_ms : float) :
  (0 <= hysteresis_samples_
          (HysteresisSmoother_new sample_rate smoothing_time_ms
             hysteresis_time_ms) <= SIZE_MAX)%Z.
Proof. apply size_t_of_float_range. Qed.

(** *** The state invariant *)

Lemma apply_hysteresis_inv (hs : Z) (target_flag : bool) (st : bool * bool * Z) :
  (0 <= hs <= SIZE_MAX)%Z ->
  flags_inv hs st -> flags_inv hs (apply_hysteresis hs target_flag st).
Proof.
  intros Hhs. destruct st as [[cur pend] c]. unfold flags_inv, apply_hysteresis.
  intros [Hc Hz].
  assert (Hs : size_t_succ c = (c + 1)%Z)
    by (apply size_t_succ_small; unfold SIZE_MAX in *; lia).
  rewrite Hs.
  destruct target_flag, cur, pend; simpl;
    try destruct (c + 1 >=? hs)%Z eqn:E;
    (split; [lia | split; intros; try reflexivity; try discriminate; try lia]).
  all: destruct Hz as [Hz1 Hz2]; try (specialize (Hz1 ltac:(lia))); try discriminate.
Qed.

Lemma Process_inv (g : HysteresisSmoother) (x : float) :
  gate_inv g -> gate_inv (fst (Process g x)).
Proof.
  intros [Hhs Hf]. unfold gate_inv.
  rewrite Process_hysteresis_samples, Process_flags.
  split; [exact Hhs | apply apply_hysteresis_inv; assumption].
Qed.

Lemma run_inv (g : HysteresisSmoother) (xs : list float) :
  gate_inv g -> gate_inv (run g xs).
Proof.
  revert g. induction xs as [| x xs IH]; intros g Hg; [exact Hg |].
  change (run g (x :: xs)) with (run (fst (Process g x)) xs).
  apply IH, Process_inv, Hg.
Qed.

Lemma new_inv (sample_rate smoothing_time_ms hysteresis_time_ms : float) :
  gate_inv (HysteresisSmoother_new sample_rate smoothing_time_ms
              hysteresis_time_ms).
Proof.
  split; [apply new_hysteresis_samples_range |].
  simpl. split; [lia | tauto].
Qed.

(** *** The four outcomes of one update *)

Lemma apply_hysteresis_cases (hs : Z) (t cur pend : bool) (c : Z) :
  (0 <= hs <= SIZE_MAX)%Z ->
  flags_inv hs (cur, pend, c) ->
  let st' := apply_hysteresis hs t (cur, pend, c) in
  (t = cur /\ st' = (cur, cur, 0%Z)) \/
  (t <> cur /\ t = pend /\ (hs <= c + 1)%Z /\ st' = (t, pend, 0%Z)) \/
  (t <> cur /\ t = pend /\ (c + 1 < hs)%Z /\ st' = (cur, pend, (c + 1)%Z)) \/
  (t <> cur /\ t <> pend /\ st' = (cur, t, 1%Z)).
Proof.
  intros Hhs [Hc Hz]. unfold apply_hysteresis.
  rewrite size_t_succ_small by (unfold SIZE_MAX in *; lia).
  destruct (Bool.eqb t cur) eqn:Ec; simpl.
  - left. apply eqb_prop in Ec. split; [exact Ec | reflexivity].
  - right. apply eqb_false_iff in Ec.
    destruct (Bool.eqb t pend) eqn:Ep.
    + apply eqb_prop in Ep.
      destruct (c + 1 >=? hs)%Z eqn:E.
      * left. repeat split; try assumption. lia.
      * right. left. repeat split; try assumption. lia.
    + right. right. apply eqb_false_iff in Ep. repeat split; assumption.
Qed.

Lemma Process_cases (g : HysteresisSmoother) (x : float) :
  gate_inv g ->
  let t := Process_target g x in
  let g' := fst (Process g x) in
  (t = current_flag_ g /\
   gate_flags g' = (current_flag_ g, current_flag_ g, 0%Z)) \/
  (t <> current_flag_ g /\ t = pending_flag_ g /\
   (hysteresis_samples_ g <= counter_ g + 1)%Z /\
   gate_flags g' = (t, pending_flag_ g, 0%Z)) \/
  (t <> current_flag_ g /\ t = pending_flag_ g /\
   (counter_ g + 1 < hysteresis_samples_ g)%Z /\
   gate_flags g' = (current_flag_ g, pending_flag_ g, (counter_ g + 1)%Z)) \/
  (t <> current_flag_ g /\ t <> pending_flag_ g /\
   gate_flags g' = (current_flag_ g, t, 1%Z)).
Proof.
  intros [Hhs Hf] t g'. subst g'. rewrite Process_flags.
  apply apply_hysteresis_cases; assumption.
Qed.

Lemma gate_flags_eq (g : HysteresisSmoother) (cur pend : bool) (c : Z) :
  gate_flags g = (cur, pend, c) ->
  current_flag_ g = cur /\ pending_flag_ g = pend /\ counter_ g = c.
Proof. unfold gate_flags. intros H. inversion H. auto. Qed.

(** *** The dwell window

    After any sequence of calls, the last [counter_] calls form a window
    in which every [target_flag] was the pending candidate and the
    observed flag did not move. *)

Lemma snoc_split (A : Type) (win w1 w2 : list A) (x : A) :
  win ++ [x] = w1 ++ w2 ->
  (w2 = [] /\ w1 = win ++ [x]) \/
  (exists w2', w2 = w2' ++ [x] /\ win = w1 ++ w2').
Proof.
  intros H. induction w2 as [| y w2' _] using rev_ind.
  - left. rewrite app_nil_r in H. auto.
  - right. rewrite app_assoc in H. apply app_inj_tail in H as [H1 H2].
    exists w2'. subst. auto.
Qed.

Lemma dwell_history (g0 : HysteresisSmoother) (xs : list float) :
  gate_inv g0 -> counter_ g0 = 0%Z ->
  exists pre win,
    xs = pre ++ win /\
    Z.of_nat (length win) = counter_ (run g0 xs) /\
    Forall (eq (pending_flag_ (run g0 xs))) (targets (run g0 pre) win) /\
    (forall w1 w2, win = w1 ++ w2 ->
       current_flag_ (run g0 (pre ++ w1)) = current_flag_ (run g0 xs)).
Proof.
  intros Hinv Hc0. induction xs as [| x xs IH] using rev_ind.
  - exists [], []. repeat split; auto.
    intros w1 w2 E. symmetry in E. apply app_eq_nil in E as [-> _]. reflexivity.
  - destruct IH as (pre & win & Exs & Hlen & Hall & Hconst).
    pose proof (run_inv g0 xs Hinv) as Hg.
    pose proof (Process_cases (run g0 xs) x Hg) as Hcases. cbv zeta in Hcases.
    rewrite <- run_snoc in Hcases.
    assert (Hnil : forall cur pend,
      gate_flags (run g0 (xs ++ [x])) = (cur, pend, 0%Z) ->
      exists pre win,
        xs ++ [x] = pre ++ win /\
        Z.of_nat (length win) = counter_ (run g0 (xs ++ [x])) /\
        Forall (eq (pending_flag_ (run g0 (xs ++ [x]))))
          (targets (run g0 pre) win) /\
        (forall w1 w2, win = w1 ++ w2 ->
           current_flag_ (run g0 (pre ++ w1)) =
           current_flag_ (run g0 (xs ++ [x])))).
    { intros cur pend E. apply gate_flags_eq in E as (_ & _ & Ec).
      exists (xs ++ [x]), []. rewrite app_nil_r, Ec.
      repeat split; auto.
      intros w1 w2 E. symmetry in E. apply app_eq_nil in E as [-> _].
      rewrite app_nil_r. reflexivity. }
    destruct Hcases as [(_ & E) | [(_ & _ & _ & E) | [(Hc & Hp & Hlt & E) | (Hc & Hp & E)]]];
      try (eapply Hnil; exact E).
    + (* the dwell count goes on *)
      apply gate_flags_eq in E as (Ecur & Epend & Ecnt).
      exists pre, (win ++ [x]).
      split; [rewrite Exs, app_assoc; reflexivity |].
      split; [rewrite length_app, Ecnt; simpl; lia |].
      split.
      * rewrite targets_app, Epend. apply Forall_app. split; [exact Hall |].
        simpl. constructor; [| constructor].
        rewrite <- run_app, <- Exs. symmetry. exact Hp.
      * intros w1 w2 Ew. rewrite Ecur.
        destruct (snoc_split _ _ _ _ _ Ew) as [[_ ->] | (w2' & _ & Ew')].
        -- rewrite app_assoc, <- Exs. exact Ecur.
        -- apply (Hconst w1 w2' Ew').
    + (* a new candidate *)
      apply gate_flags_eq in E as (Ecur & Epend & Ecnt).
      exists xs, [x].
      split; [reflexivity |].
      split; [rewrite Ecnt; reflexivity |].
      split.
      * rewrite Epend. simpl. constructor; [reflexivity | constructor].
      * intros w1 w2 Ew. rewrite Ecur.
        destruct w1 as [| a w1].
        -- rewrite app_nil_r. reflexivity.
        -- destruct w1; simpl in Ew; [| destruct w1; discriminate].
           inversion Ew; subst. exact Ecur.
Qed.

(** A change of the observed flag closes a window of at least
    [hysteresis_samples_] calls whose [target_flag] was the new value all
    along, and within which no earlier call changed the flag. *)
Lemma change_closes_window (g0 : HysteresisSmoother) (xs : list float)
    (x : float) :
  gate_inv g0 -> counter_ g0 = 0%Z ->
  changed_at g0 xs x ->
  exists pre win,
    xs ++ [x] = pre ++ win /\
    (hysteresis_samples_ g0 <= Z.of_nat (length win))%Z /\
    Forall (eq (current_flag_ (run g0 (xs ++ [x])))) (targets (run g0 pre) win) /\
    (forall w1 w2, win = w1 ++ w2 -> w2 <> [] ->
       current_flag_ (run g0 (pre ++ w1)) = current_flag_ (run g0 xs)).
Proof.
  intros Hinv Hc0 Hch. unfold changed_at in Hch.
  destruct (dwell_history g0 xs Hinv Hc0) as (pre & win & Exs & Hlen & Hall & Hconst).
  pose proof (run_inv g0 xs Hinv) as Hg.
  pose proof (Process_cases (run g0 xs) x Hg) as Hcases. cbv zeta in Hcases.
  rewrite <- run_snoc in Hcases.
  destruct Hcases as [(_ & E) | [(Hc & Hp & Hge & E) | [(_ & _ & _ & E) | (_ & _ & E)]]];
    apply gate_flags_eq in E as (Ecur & Epend & Ecnt);
    try (exfalso; apply Hch; exact Ecur).
  exists pre, (win ++ [x]).
  split; [rewrite Exs, app_assoc; reflexivity |].
  split; [rewrite length_app, run_hysteresis_samples in *; simpl; lia |].
  split.
  - rewrite targets_app, Ecur. apply Forall_app. split.
    + rewrite Hp. exact Hall.
    + simpl. constructor; [| constructor].
      rewrite <- run_app, <- Exs. reflexivity.
  - intros w1 w2 Ew Hne.
    destruct (snoc_split _ _ _ _ _ Ew) as [[Hn _] | (w2' & _ & Ew')];
      [contradiction |].
    apply (Hconst w1 w2' Ew').
Qed.


Lemma changes_separated (g0 : HysteresisSmoother) (xs ys : list float)
    (x y : float) :
  gate_inv g0 -> counter_ g0 = 0%Z ->
  changed_at g0 xs x ->
  changed_at g0 (xs ++ x :: ys) y ->
  (hysteresis_samples_ g0 <= Z.of_nat (length ys) + 1)%Z.
Proof.
  intros Hinv Hc0 Hx Hy.
  destruct (change_closes_window g0 _ y Hinv Hc0 Hy)
    as (pre & win & E & Hlen & _ & Hconst).
  destruct (Z_le_gt_dec (hysteresis_samples_ g0) (Z.of_nat (length ys) + 1))
    as [Hle | Hgt]; [exact Hle | exfalso].
  rewrite <- app_assoc in E.
  assert (Hl : exists l, xs = pre ++ l /\ win = l ++ x :: ys ++ [y]).
  { apply app_eq_app in E as [l [[E1 E2] | [E1 E2]]].
    - exists l. auto.
    - assert (Hll : length ((x :: ys) ++ [y]) = length (l ++ win))
        by (rewrite E2; reflexivity).
      rewrite !length_app in Hll. simpl in Hll.
      destruct l as [| a l]; [| simpl in Hll; lia].
      exists []. rewrite app_nil_r in E1. simpl in E2. subst.
      rewrite app_nil_r. split; reflexivity. }
  destruct Hl as (l & -> & ->).
  apply Hx.
  rewrite (Hconst l (x :: ys ++ [y]) eq_refl ltac:(discriminate)).
  replace ((pre ++ l) ++ [x]) with (pre ++ (l ++ [x]))
    by (rewrite app_assoc; reflexivity).
  apply (Hconst (l ++ [x]) (ys ++ [y])).
  - rewrite <- app_assoc. reflexivity.
  - destruct ys; discriminate.
Qed.

Lemma outputs_app (g : HysteresisSmoother) (xs ys : list float) :
  outputs g (xs ++ ys) = outputs g xs ++ outputs (run g xs) ys.
Proof.
  revert g. induction xs as [| x xs IH]; intros g; [reflexivity |].
  simpl. rewrite IH. reflexivity.
Qed.

(** The flags returned by a run are the observed flag after each call. *)
Lemma outputs_constant (g0 : HysteresisSmoother) (xs : list float) (b : bool) :
  (forall pre post, xs = pre ++ post -> current_flag_ (run g0 pre) = b) ->
  Forall (eq b) (outputs g0 xs).
Proof.
  induction xs as [| x xs IH] using rev_ind; intros H; [constructor |].
  rewrite outputs_app. apply Forall_app. split.
  - apply IH. intros pre post E. apply (H pre (post ++ [x])).
    rewrite E, app_assoc. reflexivity.
  - simpl. constructor; [| constructor].
    rewrite Process_output, <- run_snoc. symmetry.
    apply (H (xs ++ [x]) []). rewrite app_nil_r. reflexivity.
Qed.

Lemma chatter_rejected (g0 : HysteresisSmoother) (xs : list float) :
  gate_inv g0 -> counter_ g0 = 0%Z ->
  (forall pre win post (b : bool),
     xs = pre ++ win ++ post ->
     (hysteresis_samples_ g0 <= Z.of_nat (length win))%Z ->
     ~ Forall (eq b) (targets (run g0 pre) win)) ->
  forall ys zs, xs = ys ++ zs ->
    current_flag_ (run g0 ys) = current_flag_ g0.
Proof.
  intros Hinv Hc0 Hno ys.
  induction ys as [| y ys IH] using rev_ind; intros zs E; [reflexivity |].
  rewrite <- app_assoc in E.
  specialize (IH _ E).
  destruct (bool_dec (current_flag_ (run g0 (ys ++ [y])))
              (current_flag_ (run g0 ys))) as [Heq | Hne];
    [congruence | exfalso].
  destruct (change_closes_window g0 ys y Hinv Hc0 Hne)
    as (pre & win & Ew & Hlen & Hall & _).
  apply (Hno pre win zs _) in Hall; [exact Hall | | exact Hlen].
  rewrite app_assoc, <- Ew, <- app_assoc. exact E.
Qed.

(** C4, amended.  The dwell is counted on the [target_flag] of each call:
    the smoothed input compared with 0.5.  From the initial state, a call
    changes the observed flag only at the end of a window of at least
    [hysteresis_samples_] consecutive calls whose [target_flag] was the
    new value and within which the flag did not change before; two
    changes are at least [hysteresis_samples_] calls apart; and when the
    thresholded smoothed input never keeps one value over
    [hysteresis_samples_] consecutive calls, the flag keeps its initial
    value [false] after every call, and every call returns [false]. *)
Theorem gate_dwell_guarantee :
  forall (sample_rate smoothing_time_ms hysteresis_time_ms : float)
         (xs : list float),
    let g0 := HysteresisSmoother_new sample_rate smoothing_time_ms
                hysteresis_time_ms in
    let dwell := hysteresis_samples_ g0 in
    (forall pre x post, xs = pre ++ x :: post ->
       changed_at g0 pre x ->
       exists before win,
         pre ++ [x] = before ++ win /\
         (dwell <= Z.of_nat (length win))%Z /\
         Forall (eq (current_flag_ (run g0 (pre ++ [x]))))
           (targets (run g0 before) win) /\
         (forall w1 w2, win = w1 ++ w2 -> w2 <> [] ->
            current_flag_ (run g0 (before ++ w1)) =
            current_flag_ (run g0 pre))) /\
    (forall pre x mid y post, xs = pre ++ x :: mid ++ y :: post ->
       changed_at g0 pre x ->
       changed_at g0 (pre ++ x :: mid) y ->
       (dwell <= Z.of_nat (length mid) + 1)%Z) /\
    ((forall pre win post (b : bool),
        xs = pre ++ win ++ post ->
        (dwell <= Z.of_nat (length win))%Z ->
        ~ Forall (eq b) (targets (run g0 pre) win)) ->
     (forall pre post, xs = pre ++ post ->
        current_flag_ (run g0 pre) = false) /\
     Forall (eq false) (outputs g0 xs)).
Proof.
  intros sample_rate smoothing_time_ms hysteresis_time_ms xs g0 dwell.
  assert (Hinv : gate_inv g0) by apply new_inv.
  assert (Hc0 : counter_ g0 = 0%Z) by reflexivity.
  split; [| split].
  - intros pre x post _ Hch.
    exact (change_closes_window g0 pre x Hinv Hc0 Hch).
  - intros pre x mid y post _ Hx Hy.
    exact (changes_separated g0 pre mid x y Hinv Hc0 Hx Hy).
  - intros Hno.
    assert (Hall : forall pre post, xs = pre ++ post ->
                     current_flag_ (run g0 pre) = false)
      by (intros pre post E;
          exact (chatter_rejected g0 xs Hinv Hc0 Hno pre post E)).
    split; [exact Hall | apply outputs_constant; exact Hall].
Qed.


(** *** Runs as runs of the update on the thresholded inputs *)

Lemma run_flags (g : HysteresisSmoother) (xs : list float) :
  gate_flags (run g xs) =
  fold_left (fun st t => apply_hysteresis (hysteresis_samples_ g) t st)
    (targets g xs) (gate_flags g).
Proof.
  revert g. induction xs as [| x xs IH]; intros g; [reflexivity |].
  change (run g (x :: xs)) with (run (fst (Process g x)) xs).
  rewrite IH, Process_hysteresis_samples, Process_flags. reflexivity.
Qed.

Lemma Forall_eq_repeat (b : bool) (l : list bool) :
  Forall (eq b) l -> l = repeat b (length l).
Proof.
  induction 1 as [| a l <- _ IH]; [reflexivity |].
  simpl. rewrite <- IH. reflexivity.
Qed.

Lemma hold_current (hs : Z) (cur : bool) (n : nat) :
  fold_left (fun st t => apply_hysteresis hs t st) (repeat cur n)
    (cur, cur, 0%Z) = (cur, cur, 0%Z).
Proof.
  induction n as [| n IH]; [reflexivity |].
  simpl. rewrite eqb_reflx. simpl. exact IH.
Qed.

Lemma dwell_count (hs : Z) (n : nat) :
  (2 <= hs <= SIZE_MAX)%Z -> (1 <= Z.of_nat n <= hs)%Z ->
  fold_left (fun st t => apply_hysteresis hs t st) (repeat true n)
    (false, false, 0%Z) =
  if (Z.of_nat n =? hs)%Z then (true, true, 0%Z)
  else (false, true, Z.of_nat n).
Proof.
  intros Hhs. induction n as [| n IH]; intros Hn; [lia |].
  replace (repeat true (S n)) with (repeat true n ++ [true])
    by (rewrite <- repeat_cons; reflexivity).
  rewrite fold_left_app.
  destruct n as [| n].
  - change (Z.of_nat 1) with 1%Z.
    destruct (Z.eqb_spec 1 hs) as [E | E]; [exfalso; lia | reflexivity].
  - rewrite IH by lia.
    replace (Z.of_nat (S (S n))) with (Z.of_nat (S n) + 1)%Z in * by lia.
    remember (Z.of_nat (S n)) as m eqn:Hm. clear Hm IH.
    destruct (Z.eqb_spec m hs) as [E | E]; [exfalso; lia |].
    cbn [fold_left apply_hysteresis Bool.eqb negb].
    rewrite size_t_succ_small by (unfold SIZE_MAX in *; lia).
    destruct (Z.eqb_spec (m + 1) hs) as [E2 | E2];
      destruct (m + 1 >=? hs)%Z eqn:E3; try reflexivity; exfalso; lia.
Qed.

Lemma targets_firstn (g : HysteresisSmoother) (xs : list float) (k : nat) :
  targets g (firstn k xs) = firstn k (targets g xs).
Proof.
  revert g k. induction xs as [| x xs IH]; intros g k.
  - rewrite !firstn_nil. reflexivity.
  - destruct k; [reflexivity |]. simpl. rewrite IH. reflexivity.
Qed.

Lemma Forall_firstn_eq (b : bool) (l : list bool) (k : nat) :
  Forall (eq b) l -> Forall (eq b) (firstn k l).
Proof.
  intros H. rewrite <- (firstn_skipn k l) in H.
  apply Forall_app in H. tauto.
Qed.

(** C1.  The gate starts with [current = false], [pending = false] and
    counter 0.  In every state reached from there, a call computes
    [target = (smoothed >= 0.5)] and (1) when [target = current] sets
    [pending = current] and the counter to 0; (2) else when
    [target = pending] increments the counter and, when it has reached
    [hysteresis_samples_], sets [current = target] and the counter to 0;
    (3) else sets [pending = target] and the counter to 1.  The call
    returns the flag [current] it leaves. *)
Theorem Process_three_cases :
  forall (sample_rate smoothing_time_ms hysteresis_time_ms : float)
         (xs : list float) (x : float),
    let g0 := HysteresisSmoother_new sample_rate smoothing_time_ms
                hysteresis_time_ms in
    let g := run g0 xs in
    let smoothed := snd (smoother1_Process (smoother_ g) x) in
    let target := float_ge smoothed (1 / 2) in
    let g' := fst (Process g x) in
    gate_flags g0 = (false, false, 0%Z) /\
    snd (Process g x) = current_flag_ g' /\
    hysteresis_samples_ g' = hysteresis_samples_ g /\
    (target = current_flag_ g ->
     gate_flags g' = (current_flag_ g, current_flag_ g, 0%Z)) /\
    (target <> current_flag_ g -> target = pending_flag_ g ->
     gate_flags g' =
     if (counter_ g + 1 >=? hysteresis_samples_ g)%Z
     then (target, pending_flag_ g, 0%Z)
     else (current_flag_ g, pending_flag_ g, (counter_ g + 1)%Z)) /\
    (target <> current_flag_ g -> target <> pending_flag_ g ->
     gate_flags g' = (current_flag_ g, target, 1%Z)).
Proof.
  intros sample_rate smoothing_time_ms hysteresis_time_ms xs x
    g0 g smoothed target g'.
  assert (Hg : gate_inv g) by (apply run_inv, new_inv).
  pose proof (Process_cases g x Hg) as Hcases. cbv zeta in Hcases.
  fold g' in Hcases. change (Process_target g x) with target in Hcases.
  split; [reflexivity |].
  split; [apply Process_output |].
  split; [apply Process_hysteresis_samples |].
  split; [| split].
  - intros Ht.
    destruct Hcases as [(_ & E) | [(N & _) | [(N & _) | (N & _)]]];
      [exact E | contradiction ..].
  - intros Hc Hp.
    destruct Hcases as [(N & _) | [(_ & _ & Hge & E) | [(_ & _ & Hlt & E) | (_ & N & _)]]];
      try contradiction; rewrite E.
    + destruct (counter_ g + 1 >=? hysteresis_samples_ g)%Z eqn:T;
        [reflexivity | lia].
    + destruct (counter_ g + 1 >=? hysteresis_samples_ g)%Z eqn:T;
        [lia | reflexivity].
  - intros Hc Hp.
    destruct Hcases as [(N & _) | [(_ & N & _) | [(_ & N & _) | (_ & _ & E)]]];
      [contradiction .. | exact E].
Qed.

(** C9.  When [hysteresis_samples_] is at least 2, every state reached
    from the initial state has its counter below [hysteresis_samples_],
    and the counter is 0 exactly when [pending] equals [current]. *)
Theorem gate_state_invariant :
  forall (sample_rate smoothing_time_ms hysteresis_time_ms : float)
         (xs : list float),
    let g := run (HysteresisSmoother_new sample_rate smoothing_time_ms
                    hysteresis_time_ms) xs in
    (2 <= hysteresis_samples_ g)%Z ->
    (0 <= counter_ g < hysteresis_samples_ g)%Z /\
    (counter_ g = 0%Z <-> pending_flag_ g = current_flag_ g).
Proof.
  intros sample_rate smoothing_time_ms hysteresis_time_ms xs g H2.
  destruct (run_inv _ xs (new_inv sample_rate smoothing_time_ms
                            hysteresis_time_ms)) as [_ [Hc Hz]].
  fold g in Hc, Hz. split; [lia | exact Hz].
Qed.

(** C5, amended.  With [hysteresis_samples_] at least 2: when the
    smoothed input has been below 0.5 at every call since the initial
    state and is then at or above 0.5 for [hysteresis_samples_]
    consecutive calls, the flag is [false] after each of these calls but
    the last and [true] after the last. *)
Theorem gate_commits_after_dwell :
  forall (sample_rate smoothing_time_ms hysteresis_time_ms : float)
         (pre win : list float),
    let g0 := HysteresisSmoother_new sample_rate smoothing_time_ms
                hysteresis_time_ms in
    (2 <= hysteresis_samples_ g0)%Z ->
    Forall (eq false) (targets g0 pre) ->
    Forall (eq true) (targets (run g0 pre) win) ->
    Z.of_nat (length win) = hysteresis_samples_ g0 ->
    forall k : nat, (k <= length win)%nat ->
      current_flag_ (run g0 (pre ++ firstn k win)) =
      (Z.of_nat k =? hysteresis_samples_ g0)%Z.
Proof.
  intros sample_rate smoothing_time_ms hysteresis_time_ms pre win g0
    H2 Hpre Hwin Hlen k Hk.
  pose proof (new_hysteresis_samples_range sample_rate smoothing_time_ms
                hysteresis_time_ms) as Hr. fold g0 in Hr.
  assert (Hp : gate_flags (run g0 pre) = (false, false, 0%Z)).
  { rewrite run_flags, (Forall_eq_repeat _ _ Hpre). apply hold_current. }
  assert (Hf : gate_flags (run g0 (pre ++ firstn k win)) =
               fold_left (fun st t =>
                            apply_hysteresis (hysteresis_samples_ g0) t st)
                 (repeat true k) (false, false, 0%Z)).
  { rewrite run_app, run_flags, Hp, run_hysteresis_samples, targets_firstn.
    rewrite (Forall_eq_repeat _ _ (Forall_firstn_eq true _ k Hwin)).
    rewrite length_firstn, targets_length, Nat.min_l by exact Hk.
    reflexivity. }
  destruct k as [| k].
  - apply gate_flags_eq in Hf as (Hcur & _). rewrite Hcur.
    destruct (Z.eqb_spec (Z.of_nat 0) (hysteresis_samples_ g0)) as [E | E];
      [exfalso; lia | reflexivity].
  - rewrite dwell_count in Hf by lia.
    destruct (Z.of_nat (S k) =? hysteresis_samples_ g0)%Z;
      apply gate_flags_eq in Hf as (-> & _); reflexivity.
Qed.


(** *** The first call, and calls that agree with the flag *)

Lemma first_call_false
    (sample_rate smoothing_time_ms hysteresis_time_ms x : float) :
  snd (Process (HysteresisSmoother_new sample_rate smoothing_time_ms
                  hysteresis_time_ms) x) = false.
Proof.
  rewrite Process_output.
  pose proof (Process_flags (HysteresisSmoother_new sample_rate
                smoothing_time_ms hysteresis_time_ms) x) as H.
  rewrite new_flags in H.
  destruct (Process_target _ x); apply gate_flags_eq in H as (-> & _);
    reflexivity.
Qed.

Lemma matching_target_keeps_flag (g : HysteresisSmoother) (x : float) :
  Process_target g x = current_flag_ g ->
  snd (Process g x) = current_flag_ g.
Proof.
  intros Ht. rewrite Process_output.
  pose proof (Process_flags g x) as H. rewrite Ht in H.
  unfold gate_flags at 2 in H. unfold apply_hysteresis in H.
  rewrite eqb_reflx in H. simpl in H.
  apply gate_flags_eq in H as (H & _). exact H.
Qed.

End GateProperties.

(** *** The gate on concrete runs

    With the pass-through smoother the thresholded input of a call is the
    threshold of its raw input, and a run evaluates on the three stored
    fields. *)

Lemma thr_one : float_ge 1 (1 / 2) = true.
Proof. apply float_le_true. lra. Qed.

Lemma thr_zero : float_ge 0 (1 / 2) = false.
Proof. apply float_le_false. lra. Qed.

Lemma passthrough_targets
    (g : @HysteresisSmoother passthrough_smoother) (xs : list float) :
  targets g xs = map (fun x => float_ge x (1 / 2)) xs.
Proof.
  revert g. induction xs as [| x xs IH]; intros g; [reflexivity |].
  simpl. rewrite IH. reflexivity.
Qed.

(** A gate of three samples of dwell: 3 ms at 1 kHz. *)
Lemma dwell_three (SM : OnePoleSmoother1) :
  hysteresis_samples_ (HysteresisSmoother_new 1000 400 3) = 3%Z.
Proof.
  simpl. apply size_t_of_float_floor; [unfold SIZE_MAX; lia | lra].
Qed.

Lemma passthrough_run_flags (xs : list float) :
  gate_flags (run (@HysteresisSmoother_new passthrough_smoother 1000 400 3) xs) =
  fold_left (fun st t => apply_hysteresis 3 t st)
    (map (fun x => float_ge x (1 / 2)) xs) (false, false, 0%Z).
Proof. rewrite run_flags, dwell_three, passthrough_targets. reflexivity. Qed.

Ltac gate_eval :=
  rewrite ?passthrough_run_flags; simpl map; rewrite ?thr_one, ?thr_zero;
  try reflexivity.

Lemma passthrough_run_1 :
  gate_flags (run (@HysteresisSmoother_new passthrough_smoother 1000 400 3) [1]) =
  (false, true, 1%Z).
Proof. gate_eval. Qed.

Lemma passthrough_run_11 :
  gate_flags (run (@HysteresisSmoother_new passthrough_smoother 1000 400 3) [1; 1]) =
  (false, true, 2%Z).
Proof. gate_eval. Qed.

Lemma passthrough_run_111 :
  gate_flags (run (@HysteresisSmoother_new passthrough_smoother 1000 400 3)
                [1; 1; 1]) = (true, true, 0%Z).
Proof. gate_eval. Qed.

Lemma passthrough_run_11100 :
  gate_flags (run (@HysteresisSmoother_new passthrough_smoother 1000 400 3)
                [1; 1; 1; 0; 0]) = (true, false, 2%Z).
Proof. gate_eval. Qed.

Lemma passthrough_run_111000 :
  gate_flags (run (@HysteresisSmoother_new passthrough_smoother 1000 400 3)
                [1; 1; 1; 0; 0; 0]) = (false, false, 0%Z).
Proof. gate_eval. Qed.

Lemma passthrough_changed_111 :
  changed_at (@HysteresisSmoother_new passthrough_smoother 1000 400 3) [1; 1] 1.
Proof.
  unfold changed_at. simpl app.
  destruct (gate_flags_eq _ _ _ _ passthrough_run_11) as (-> & _).
  destruct (gate_flags_eq _ _ _ _ passthrough_run_111) as (-> & _).
  discriminate.
Qed.

Lemma passthrough_changed_111000 :
  changed_at (@HysteresisSmoother_new passthrough_smoother 1000 400 3)
    ([1; 1] ++ 1 :: [0; 0]) 0.
Proof.
  unfold changed_at. simpl app.
  destruct (gate_flags_eq _ _ _ _ passthrough_run_11100) as (-> & _).
  destruct (gate_flags_eq _ _ _ _ passthrough_run_111000) as (-> & _).
  discriminate.
Qed.

Lemma Process_three_cases_witness :
  let g0 := @HysteresisSmoother_new passthrough_smoother 1000 400 3 in
  gate_flags (fst (Process g0 0)) = (false, false, 0%Z) /\
  gate_flags (fst (Process g0 1)) = (false, true, 1%Z) /\
  gate_flags (fst (Process (run g0 [1]) 1)) = (false, true, 2%Z) /\
  gate_flags (fst (Process (run g0 [1; 1]) 1)) = (true, true, 0%Z).
Proof.
  intros g0.
  pose proof (Process_three_cases (SM := passthrough_smoother) 1000 400 3 [] 0)
    as (_ & _ & _ & H1 & _ & _).
  pose proof (Process_three_cases (SM := passthrough_smoother) 1000 400 3 [] 1)
    as (_ & _ & _ & _ & _ & H3).
  pose proof (Process_three_cases (SM := passthrough_smoother) 1000 400 3 [1] 1)
    as (_ & _ & _ & _ & H2 & _).
  pose proof (Process_three_cases (SM := passthrough_smoother) 1000 400 3 [1; 1] 1)
    as (_ & _ & _ & _ & H2' & _).
  fold g0 in H1, H2, H2', H3.
  destruct (gate_flags_eq _ _ _ _ passthrough_run_1) as (Ec1 & Ep1 & En1).
  destruct (gate_flags_eq _ _ _ _ passthrough_run_11) as (Ec2 & Ep2 & En2).
  fold g0 in Ec1, Ep1, En1, Ec2, Ep2, En2.
  simpl snd in H1, H2, H2', H3.
  rewrite thr_zero in H1. rewrite thr_one in H2, H2', H3.
  rewrite Ec1, Ep1, En1, run_hysteresis_samples in H2.
  rewrite Ec2, Ep2, En2, run_hysteresis_samples in H2'.
  unfold g0 in H2, H2'. rewrite dwell_three in H2, H2'.
  split; [apply H1; reflexivity |].
  split; [apply H3; discriminate |].
  split; [apply H2; [discriminate | reflexivity] |].
  apply H2'; [discriminate | reflexivity].
Defined.

Lemma gate_dwell_guarantee_witness :
  let g0 := @HysteresisSmoother_new passthrough_smoother 1000 400 3 in
  (exists before win,
     [1; 1] ++ [1] = before ++ win /\
     (hysteresis_samples_ g0 <= Z.of_nat (length win))%Z /\
     Forall (eq (current_flag_ (run g0 ([1; 1] ++ [1]))))
       (targets (run g0 before) win) /\
     (forall w1 w2, win = w1 ++ w2 -> w2 <> [] ->
        current_flag_ (run g0 (before ++ w1)) = current_flag_ (run g0 [1; 1]))) /\
  (hysteresis_samples_ g0 <= Z.of_nat (length [0; 0]) + 1)%Z /\
  (forall pre post, [1; 0; 1] = pre ++ post ->
     current_flag_ (run g0 pre) = false) /\
  Forall (eq false) (outputs g0 [1; 0; 1]).
Proof.
  intros g0.
  pose proof (gate_dwell_guarantee (SM := passthrough_smoother) 1000 400 3
                [1; 1; 1]) as (Ha & _ & _).
  pose proof (gate_dwell_guarantee (SM := passthrough_smoother) 1000 400 3
                [1; 1; 1; 0; 0; 0]) as (_ & Hb & _).
  pose proof (gate_dwell_guarantee (SM := passthrough_smoother) 1000 400 3
                [1; 0; 1]) as (_ & _ & Hc).
  fold g0 in Ha, Hb, Hc.
  split; [apply (Ha [1; 1] 1 []); [reflexivity | apply passthrough_changed_111] |].
  split.
  { apply (Hb [1; 1] 1 [0; 0] 0 []);
      [reflexivity | apply passthrough_changed_111
      | apply passthrough_changed_111000]. }
  apply Hc.
  intros pre win post b E Hlen Hall.
  unfold g0 in Hlen. rewrite dwell_three in Hlen.
  rewrite passthrough_targets in Hall.
  assert (Hl : length [1; 0; 1] = length (pre ++ win ++ post))
    by (rewrite <- E; reflexivity).
  rewrite !length_app in Hl. simpl in Hl.
  destruct pre as [| p pre]; [| simpl in Hl; lia].
  destruct post as [| q post];
    [| rewrite length_cons in Hl; lia].
  simpl in E. rewrite app_nil_r in E. subst win.
  simpl in Hall. rewrite thr_one, thr_zero in Hall.
  inversion Hall as [| ? ? Hb1 Hr1]; subst.
  inversion Hr1 as [| ? ? Hb2 _]; subst. discriminate.
Defined.

Lemma gate_state_invariant_witness :
  let g := run (@HysteresisSmoother_new passthrough_smoother 1000 400 3) [1; 1] in
  (0 <= counter_ g < hysteresis_samples_ g)%Z /\
  (counter_ g = 0%Z <-> pending_flag_ g = current_flag_ g).
Proof.
  apply (gate_state_invariant (SM := passthrough_smoother) 1000 400 3 [1; 1]).
  rewrite run_hysteresis_samples, dwell_three. lia.
Defined.

Lemma gate_commits_after_dwell_witness :
  let g0 := @HysteresisSmoother_new passthrough_smoother 1000 400 3 in
  current_flag_ (run g0 ([0] ++ firstn 2 [1; 1; 1])) = false /\
  current_flag_ (run g0 ([0] ++ firstn 3 [1; 1; 1])) = true.
Proof.
  intros g0.
  assert (H : forall k : nat, (k <= 3)%nat ->
            current_flag_ (run g0 ([0] ++ firstn k [1; 1; 1])) =
            (Z.of_nat k =? 3)%Z).
  { intros k Hk. unfold g0. rewrite <- (dwell_three passthrough_smoother) at 2.
    apply (gate_commits_after_dwell (SM := passthrough_smoother)
             1000 400 3 [0] [1; 1; 1]).
    - rewrite dwell_three. lia.
    - rewrite passthrough_targets. simpl. rewrite thr_zero. repeat constructor.
    - rewrite passthrough_targets. simpl. rewrite thr_one. repeat constructor.
    - rewrite dwell_three. reflexivity.
    - exact Hk. }
  split; [apply (H 2%nat); lia | apply (H 3%nat); lia].
Defined.

(** *** The gate behind the one-pole smoother *)

Lemma OnePole_hold (g : @HysteresisSmoother OnePole_smoother) (n : nat) :
  0 < pole (smoother_ g) < 1 ->
  0 <= y_ (smoother_ g) ->
  gate_flags g = (false, false, 0%Z) ->
  y_ (smoother_ g) + INR n * (1 - pole (smoother_ g)) < 1 / 2 ->
  gate_flags (run g (repeat 1 n)) = (false, false, 0%Z).
Proof.
  revert g. induction n as [| n IH]; intros g Hp Hy Hf Hlt; [exact Hf |].
  change (run g (repeat 1 (S n))) with (run (fst (Process g 1)) (repeat 1 n)).
  rewrite S_INR in Hlt.
  assert (Hn : 0 <= INR n) by apply pos_INR.
  assert (Hs : smoother_ (fst (Process g 1)) =
               {| pole := pole (smoother_ g);
                  y_ := pole (smoother_ g) * y_ (smoother_ g)
                        + (1 - pole (smoother_ g)) * 1 |})
    by (rewrite Process_smoother; reflexivity).
  apply IH; rewrite ?Hs; simpl pole; simpl y_.
  - exact Hp.
  - nra.
  - rewrite Process_flags, Hf.
    assert (Ht : Process_target g 1 = false).
    { apply float_le_false. simpl. nra. }
    rewrite Ht. reflexivity.
  - nra.
Qed.

(** C5, as stated, fails.  At 48 kHz with the 400 ms smoothing and the
    150 ms dwell of the application, the dwell is 7200 calls; with the
    gate's input held at 1 from the first call on, the flag is still
    [false] after each of the first 7200 calls.  And with a dwell of one
    call (1 ms at 1 kHz) the flag is still [false] after the first call,
    which holds whatever the smoother does. *)
Lemma gate_lags_behind_held_input :
  let g0 := @HysteresisSmoother_new OnePole_smoother 48000 400 150 in
  let g1 := @HysteresisSmoother_new OnePole_smoother 1000 400 1 in
  1 / 2 < 1 /\
  (hysteresis_samples_ g0 = 7200%Z /\
   forall n : nat, (Z.of_nat n <= 7200)%Z ->
     current_flag_ (run g0 (repeat 1 n)) = false) /\
  (hysteresis_samples_ g1 = 1%Z /\
   current_flag_ (run g1 [1]) = false).
Proof.
  intros g0 g1.
  split; [lra |].
  split;
    [| split;
       [simpl; apply size_t_of_float_floor; [unfold SIZE_MAX; lia | lra]
       | change (run g1 [1]) with (fst (Process g1 1));
         rewrite <- Process_output; apply first_call_false]].
  split; [simpl; apply size_t_of_float_floor; [unfold SIZE_MAX; lia | lra] |].
  intros n Hn.
  assert (Hu : 400 * (1 / 1000) * 48000 = 19200) by lra.
  assert (Hpole : pole (smoother_ g0) = exp (- (1 / 19200)))
    by (simpl; rewrite Hu; reflexivity).
  pose proof (exp_ineq1_le (- (1 / 19200))) as Hlo.
  assert (Hhi : exp (- (1 / 19200)) < exp 0) by (apply exp_increasing; lra).
  rewrite exp_0 in Hhi.
  assert (HN : INR n <= 7200).
  { rewrite INR_IZR_INZ. apply IZR_le. exact Hn. }
  assert (Hn0 : 0 <= INR n) by apply pos_INR.
  remember (exp (- (1 / 19200))) as e eqn:He. clear He.
  assert (Hf : gate_flags (run g0 (repeat 1 n)) = (false, false, 0%Z)).
  { apply OnePole_hold; rewrite ?Hpole.
    - lra.
    - simpl. lra.
    - reflexivity.
    - simpl y_. nra. }
  apply gate_flags_eq in Hf as (Hc & _). exact Hc.
Qed.

Lemma OnePole_Process_state (sr ht pl y : float) (cur pend : bool)
    (cnt hs : Z) (x : float) :
  fst (@Process OnePole_smoother
         (@mkHysteresisSmoother OnePole_smoother sr ht (mkOnePole pl y)
            cur pend cnt hs) x) =
  let y' := pl * y + (1 - pl) * x in
  let '(c, p, n) :=
    apply_hysteresis hs (float_ge y' (1 / 2)) (cur, pend, cnt) in
  @mkHysteresisSmoother OnePole_smoother sr ht (mkOnePole pl y') c p n hs.
Proof.
  unfold Process, apply_hysteresis. simpl.
  destruct (negb (Bool.eqb _ cur)); [| reflexivity].
  destruct (Bool.eqb _ pend); [| reflexivity].
  simpl. destruct (_ >=? _)%Z; reflexivity.
Qed.

(** The dwell guarantee is about the smoothed signal.  A raw input that
    crosses 0.5 at every call (1, 0.4, 1, 0.4) still sets the flag of a
    gate of two calls of dwell when its smoothed value settles above 0.5;
    here the pole of the smoother is 1/2. *)
Example raw_chatter_sets_flag :
  let g0 := @mkHysteresisSmoother OnePole_smoother 1000 2 (mkOnePole (1 / 2) 0)
              false false 0 2 in
  map (fun x => float_ge x (1 / 2)) [1; 2 / 5; 1; 2 / 5] =
    [true; false; true; false] /\
  targets g0 [1; 2 / 5; 1; 2 / 5] = [true; false; true; true] /\
  current_flag_ (run g0 [1; 2 / 5; 1; 2 / 5]) = true.
Proof.
  intros g0.
  assert (T1 : float_ge 1 (1 / 2) = true) by (apply float_le_true; lra).
  assert (T2 : float_ge (2 / 5) (1 / 2) = false) by (apply float_le_false; lra).
  assert (S1 : float_ge (1 / 2 * 0 + (1 - 1 / 2) * 1) (1 / 2) = true)
    by (apply float_le_true; lra).
  assert (S2 : float_ge (1 / 2 * (1 / 2 * 0 + (1 - 1 / 2) * 1)
                         + (1 - 1 / 2) * (2 / 5)) (1 / 2) = false)
    by (apply float_le_false; lra).
  assert (S3 : float_ge (1 / 2 * (1 / 2 * (1 / 2 * 0 + (1 - 1 / 2) * 1)
                                  + (1 - 1 / 2) * (2 / 5))
                         + (1 - 1 / 2) * 1) (1 / 2) = true)
    by (apply float_le_true; lra).
  assert (S4 : float_ge (1 / 2 * (1 / 2 * (1 / 2 * (1 / 2 * 0 + (1 - 1 / 2) * 1)
                                           + (1 - 1 / 2) * (2 / 5))
                                  + (1 - 1 / 2) * 1)
                         + (1 - 1 / 2) * (2 / 5)) (1 / 2) = true)
    by (apply float_le_true; lra).
  split; [simpl; rewrite T1, T2; reflexivity |].
  unfold g0, run. cbn [targets fold_left]. unfold Process_target.
  rewrite !OnePole_Process_state. cbn [smoother_ smoother1_Process
    OnePole_smoother OnePole_Process pole y_ snd].
  cbv zeta. rewrite S1. cbn [apply_hysteresis Bool.eqb negb].
  rewrite !OnePole_Process_state. cbn [smoother_ smoother1_Process
    OnePole_smoother OnePole_Process pole y_ snd].
  cbv zeta. rewrite S2. cbn [apply_hysteresis Bool.eqb negb].
  rewrite !OnePole_Process_state. cbn [smoother_ smoother1_Process
    OnePole_smoother OnePole_Process pole y_ snd].
  cbv zeta. rewrite S3. cbn [apply_hysteresis Bool.eqb negb].
  rewrite !OnePole_Process_state. cbn [smoother_ smoother1_Process
    OnePole_smoother OnePole_Process pole y_ snd].
  cbv zeta. rewrite S4. cbn [apply_hysteresis Bool.eqb negb].
  split; reflexivity.
Qed.

(** C4, as stated, fails on the input itself: the dwell is counted on the
    smoothed input.  A gate built for 1 kHz with 1 ms of smoothing and
    2 ms of dwell has a dwell of two calls; on the input 1, 0.49 the
    thresholded input is [true] then [false], on neither side of 0.5 for
    two calls, while the smoothed input is above 0.5 at both calls and
    the second call returns [true]. *)
Lemma gate_raw_chatter_commits :
  let g0 := @HysteresisSmoother_new OnePole_smoother 1000 1 2 in
  hysteresis_samples_ g0 = 2%Z /\
  map (fun x => float_ge x (1 / 2)) [1; 49 / 100] = [true; false] /\
  outputs g0 [1; 49 / 100] = [false; true].
Proof.
  intros g0.
  assert (Hhs : size_t_of_float (2 * (1 / 1000) * 1000) = 2%Z)
    by (apply size_t_of_float_floor; [unfold SIZE_MAX; lia | lra]).
  assert (T1 : float_ge 1 (1 / 2) = true) by (apply float_le_true; lra).
  assert (T2 : float_ge (49 / 100) (1 / 2) = false)
    by (apply float_le_false; lra).
  split; [exact Hhs |].
  split; [simpl; rewrite T1, T2; reflexivity |].
  assert (Hp : 1 / 3 <= exp (- (1 / (1 * (1 / 1000) * 1000))) <= 4 / 9).
  { replace (- (1 / (1 * (1 / 1000) * 1000))) with (- (1)) by field.
    assert (E : exp (- (1)) * exp 1 = 1).
    { rewrite <- exp_plus. replace (- (1) + 1) with 0 by ring. apply exp_0. }
    pose proof exp_le_3 as H3.
    pose proof (exp_ineq1_le (1 / 2)) as Hh.
    assert (E2 : exp 1 = exp (1 / 2) * exp (1 / 2)).
    { rewrite <- exp_plus. f_equal. lra. }
    pose proof (exp_pos (- (1))) as Hpos.
    remember (exp (- (1))) as p. remember (exp 1) as e.
    remember (exp (1 / 2)) as h.
    assert (He : 9 / 4 <= e) by nra.
    split; nra. }
  assert (Hg : g0 = @mkHysteresisSmoother OnePole_smoother 1000 2
                      (mkOnePole (exp (- (1 / (1 * (1 / 1000) * 1000)))) 0)
                      false false 0 2).
  { unfold g0, HysteresisSmoother_new. rewrite Hhs. reflexivity. }
  rewrite Hg. clear Hg g0.
  remember (exp (- (1 / (1 * (1 / 1000) * 1000)))) as p eqn:Ep. clear Ep.
  assert (S1 : float_ge (p * 0 + (1 - p) * 1) (1 / 2) = true)
    by (apply float_le_true; lra).
  assert (S2 : float_ge (p * (p * 0 + (1 - p) * 1) + (1 - p) * (49 / 100))
                 (1 / 2) = true)
    by (apply float_le_true; nra).
  cbn [outputs]. rewrite !Process_output.
  rewrite !OnePole_Process_state. cbv zeta. rewrite S1.
  cbn [apply_hysteresis Bool.eqb negb].
  rewrite !OnePole_Process_state. cbv zeta. rewrite S2.
  cbn [apply_hysteresis Bool.eqb negb].
  reflexivity.
Qed.

(** ** Effect Graph *)


Section AppProperties.

Context {SM : OnePoleSmoother1} {EXT : Collaborators}.

Lemma read_params_None (buffer : list float) :
  read_params buffer = None <-> (length buffer < kN_Params)%nat.
Proof.
  unfold kN_Params.
  do 7 (destruct buffer as [| ? buffer]; [simpl; split; [lia | reflexivity] |]).
  simpl. split; [discriminate | lia].
Qed.

Lemma read_params_firstn (buffer : list float) (p : ParamDef) :
  read_params buffer = Some p ->
  firstn kN_Params buffer =
  [which_shift p; shift p; shift2 p; dlyfeedback p; wahlevel p; wahdrywet p;
   wahwah p].
Proof.
  unfold kN_Params.
  do 7 (destruct buffer as [| ? buffer]; [discriminate |]).
  simpl. intros H. inversion H. reflexivity.
Qed.


(** One pass, once the parameters are read: the gate's flag selects the
    pitch mode, and the signal runs through the stages so configured. *)
Lemma ProcessInline_pass (a : BettyAudioApp) (pitch_bias : float)
    (x : stereosample_t) (p : ParamDef) :
  pass_params a = Some p ->
  exists a' out,
    ProcessInline a pitch_bias x = Some (a', out) /\
    let '(ps1, ps2, mix_pitch1, mix_pitch2) :=
      pitch_mode (pass_switch a pitch_bias p) p (pitchshifter_ a)
        (pitchshifter2_ a) in
    signal_path x (dl_ a) (configure_wah (wah_ a) p) ps1 ps2
      mix_pitch1 mix_pitch2 (dcb a) =
    (dl_ a', wah_ a', pitchshifter_ a', pitchshifter2_ a', dcb a', out).
Proof.
  unfold pass_params, pass_switch, ProcessInline.
  destruct (smoother1_Process (pitchbias_smoother a) pitch_bias)
    as [pbs raw_pitch_bias].
  destruct (read_params (neuralNetOutputs a)) as [raw |]; [| discriminate].
  simpl option_map. intros E. inversion E as [Ep]. clear E.
  destruct (smootherN_Process (smoother a) raw) as [sm p']. simpl.
  destruct (Process (smoother_pitchshift_switch a) _) as [gate sw]. simpl.
  destruct (pitch_mode sw p' (pitchshifter_ a) (pitchshifter2_ a))
    as [[[ps1 ps2] m1] m2].
  destruct (signal_path x (dl_ a) _ ps1 ps2 m1 m2 (dcb a))
    as [[[[[dl w] ps1'] ps2'] dc] out].
  eexists. eexists. split; reflexivity.
Qed.

Lemma ProcessInline_None (a : BettyAudioApp) (pitch_bias : float)
    (x : stereosample_t) :
  ProcessInline a pitch_bias x = None <->
  (length (neuralNetOutputs a) < kN_Params)%nat.
Proof.
  rewrite <- read_params_None.
  destruct (read_params (neuralNetOutputs a)) as [raw |] eqn:E.
  - split; [| discriminate].
    destruct (ProcessInline_pass a pitch_bias x
                (snd (smootherN_Process (smoother a) raw)))
      as (a' & out & H & _).
    + unfold pass_params. rewrite E. reflexivity.
    + rewrite H. discriminate.
  - split; [reflexivity |]. intros _.
    unfold ProcessInline.
    destruct (smoother1_Process (pitchbias_smoother a) pitch_bias).
    rewrite E. reflexivity.
Qed.

(** C6.  On a pass whose parameters are read, with [p] the smoothed
    parameters: when the gate returns [true], the signal runs through the
    first pitch shifter with its transposition set to
    [MapToSeries (shift p) {2, 5, 7, 10, 12}], the second shifter as it
    was, and the mix weights 1 and 0; when the gate returns [false], the
    first shifter's transposition is set to -9 if [shift p] exceeds 0.5
    and to -8 otherwise, the second shifter's to -7 whatever [shift2 p],
    and the mix weights are 0.5 and 0.5. *)
Theorem pitch_mode_selection :
  forall (a : BettyAudioApp) (pitch_bias : float) (x : stereosample_t)
         (p : ParamDef),
    pass_params a = Some p ->
    let smoothed_switch := pass_switch a pitch_bias p in
    let w := configure_wah (wah_ a) p in
    exists a' out,
      ProcessInline a pitch_bias x = Some (a', out) /\
      (smoothed_switch = true ->
       signal_path x (dl_ a) w
         (PitchShifter_SetTransposition (pitchshifter_ a)
            (MapToSeries (shift p) [2; 5; 7; 10; 12]))
         (pitchshifter2_ a) 1 0 (dcb a) =
       (dl_ a', wah_ a', pitchshifter_ a', pitchshifter2_ a', dcb a', out)) /\
      (smoothed_switch = false ->
       signal_path x (dl_ a) w
         (PitchShifter_SetTransposition (pitchshifter_ a)
            (if Rlt_dec (1 / 2) (shift p) then -9 else -8))
         (PitchShifter_SetTransposition (pitchshifter2_ a) (-7))
         (1 / 2) (1 / 2) (dcb a) =
       (dl_ a', wah_ a', pitchshifter_ a', pitchshifter2_ a', dcb a', out)).
Proof.
  intros a pitch_bias x p Hp smoothed_switch w.
  destruct (ProcessInline_pass a pitch_bias x p Hp) as (a' & out & E & Hs).
  fold smoothed_switch in Hs. fold w in Hs.
  exists a', out. split; [exact E |]. split; intros Hsw; rewrite Hsw in Hs.
  - exact Hs.
  - unfold pitch_mode, float_gt, float_lt in Hs.
    destruct (Rlt_dec (1 / 2) (shift p));
      destruct (Rlt_dec (1 / 2) (shift2 p)); exact Hs.
Qed.


(** C10.  [ProcessParams] stores the vector it is given as it is,
    whatever its length, and the last vector stored is the one kept.  The
    pass reads the first [kN_Params = 7] floats of the stored vector, and
    reads out of its bounds exactly when the vector stored is shorter
    than 7: nothing between the two checks the length.  The vector the
    constructor stores has length 7. *)
Theorem ProcessParams_unchecked_length :
  forall (a : BettyAudioApp) (params params' : list float)
         (pitch_bias : float) (x : stereosample_t),
    kN_Params = 7%nat /\
    neuralNetOutputs (ProcessParams a params) = params /\
    ProcessParams (ProcessParams a params) params' = ProcessParams a params' /\
    (ProcessInline (ProcessParams a params) pitch_bias x = None <->
     (length params < kN_Params)%nat) /\
    (forall raw, read_params params = Some raw ->
       firstn kN_Params params =
       [which_shift raw; shift raw; shift2 raw; dlyfeedback raw; wahlevel raw;
        wahdrywet raw; wahwah raw]) /\
    ProcessInline (ProcessParams a []) pitch_bias x = None /\
    ProcessInline BettyAudioApp_new pitch_bias x <> None.
Proof.
  intros a params params' pitch_bias x.
  split; [reflexivity |]. split; [reflexivity |]. split; [reflexivity |].
  split; [apply ProcessInline_None |].
  split; [apply read_params_firstn |].
  split.
  - apply ProcessInline_None. simpl. unfold kN_Params. lia.
  - intros E. apply ProcessInline_None in E. simpl in E.
    unfold kN_Params in E. simpl in E. lia.
Qed.


End AppProperties.

(** *** Concrete passes *)

Example MapToSeries_one_half : MapToSeries (1 / 2) [2; 5; 7; 10; 12] = 7.
Proof.
  unfold MapToSeries. simpl Z.of_nat. simpl Z.eqb. cbv iota.
  unfold MapToSeries_index, float_of_size_t.
  rewrite clamp01_id by lra.
  rewrite (size_t_of_float_floor _ 2) by (unfold SIZE_MAX; simpl; lra || lia).
  reflexivity.
Qed.

Example BiasedScale_one_one : BiasedScale 1 1 = 1.
Proof.
  rewrite BiasedScale_affine. cbv zeta. rewrite !clamp01_id by lra.
  rewrite BiasedScale_range_high by lra. simpl. lra.
Qed.




Lemma pitch_mode_selection_witness :
  let quiet := @BettyAudioApp_new passthrough_smoother demo_collaborators in
  let settled :=
    @mkBettyAudioApp passthrough_smoother demo_collaborators
      [1; 1 / 2; 0; 0; 0; 0; 0] tt 0 0 (0, 0, 0) tt tt
      (@mkHysteresisSmoother passthrough_smoother 48000 150 tt
         true true 0 7200) tt in
  (exists a' out,
     ProcessInline quiet 0 (mkStereo 0 0) = Some (a', out) /\
     pitchshifter_ a' = -8 /\ pitchshifter2_ a' = -7) /\
  (exists a' out,
     ProcessInline settled 1 (mkStereo 0 0) = Some (a', out) /\
     pitchshifter_ a' = 7 /\ pitchshifter2_ a' = 0).
Proof.
  intros quiet settled. split.
  - destruct (pitch_mode_selection (SM := passthrough_smoother)
                (EXT := demo_collaborators) quiet 0 (mkStereo 0 0)
                (mkParamDef 0 0 0 0 0 0 0) eq_refl)
      as (a' & out & E & _ & HB).
    exists a', out. split; [exact E |].
    assert (Hsw : pass_switch quiet 0 (mkParamDef 0 0 0 0 0 0 0) = false)
      by (apply (first_call_false (SM := passthrough_smoother))).
    specialize (HB Hsw). simpl in HB.
    destruct (Rlt_dec (1 / 2) 0) as [N | _]; [lra |].
    inversion HB. split; reflexivity.
  - destruct (pitch_mode_selection (SM := passthrough_smoother)
                (EXT := demo_collaborators) settled 1 (mkStereo 0 0)
                (mkParamDef 1 (1 / 2) 0 0 0 0 0) eq_refl)
      as (a' & out & E & HA & _).
    exists a', out. split; [exact E |].
    assert (Hsw : pass_switch settled 1 (mkParamDef 1 (1 / 2) 0 0 0 0 0) = true).
    { unfold pass_switch.
      change (snd (Process (smoother_pitchshift_switch settled)
                     (BiasedScale 1 1)) =
              current_flag_ (smoother_pitchshift_switch settled)).
      apply (matching_target_keeps_flag (SM := passthrough_smoother)).
      change (float_ge (BiasedScale 1 1) (1 / 2) = true).
      rewrite BiasedScale_one_one. apply thr_one. }
    specialize (HA Hsw). simpl shift in HA.
    rewrite MapToSeries_one_half in HA. simpl in HA.
    inversion HA. split; reflexivity.
Defined.

Lemma ProcessParams_unchecked_length_witness :
  firstn kN_Params [1; 2; 3; 4; 5; 6; 7; 8] = [1; 2; 3; 4; 5; 6; 7] /\
  ProcessInline
    (ProcessParams
       (@BettyAudioApp_new passthrough_smoother demo_collaborators) [1; 2; 3])
    0 (mkStereo 0 0) = None.
Proof.
  pose proof (ProcessParams_unchecked_length (SM := passthrough_smoother)
                (EXT := demo_collaborators) BettyAudioApp_new
                [1; 2; 3; 4; 5; 6; 7; 8] [] 0 (mkStereo 0 0))
    as (_ & _ & _ & _ & Hread & _).
  pose proof (ProcessParams_unchecked_length (SM := passthrough_smoother)
                (EXT := demo_collaborators) BettyAudioApp_new
                [1; 2; 3] [] 0 (mkStereo 0 0))
    as (_ & _ & _ & Hshort & _).
  split.
  - apply (Hread (mkParamDef 1 2 3 4 5 6 7)). reflexivity.
  - apply Hshort. simpl. unfold kN_Params. lia.
Defined.

(** * Further properties of the Value Mapper *)











Lemma MapToSeries_at_index (value : float) (series : list float) :
  series <> [] ->
  MapToSeries value series =
  at_index series (MapToSeries_index value (Z.of_nat (length series))).
Proof.
  intros Hne.
  destruct (MapToSeries_nonempty value series Hne) as [E | [Hl E]];
    [exact E |].
  rewrite E. destruct series as [| x [| y ys]]; try discriminate.
  simpl length. simpl Z.of_nat.
  pose proof (MapToSeries_index_bounds value 1 ltac:(lia)) as Hb.
  replace (MapToSeries_index value 1) with 0%Z by lia. reflexivity.
Qed.







(** Why the bias is given [float_slack]: in binary32 the product and the
    sum of line 115 are rounded one after the other, and a higher bias can
    give a result one unit in the last place lower. *)
Example BiasedScale_bias_inversion_binary32 :
  let v := S754_finite false 16774318 (-24) in
  let b := S754_finite false 16775766 (-24) in
  let b' := S754_finite false 16775767 (-24) in
  B32.lt b b' = true /\
  B32.lt (B32.BiasedScale v b') (B32.BiasedScale v b) = true.
Proof. vm_compute. split; reflexivity. Qed.




(** Why values must be apart: in binary32 two adjacent values can give
    the same result, here at bias 0.25. *)
Example BiasedScale_collision_binary32 :
  let quarter := B32.div B32.one (B32.of_Z 4) in
  let v := S754_finite false 15725685 (-26) in
  let v' := S754_finite false 15725686 (-26) in
  B32.lt v v' = true /\
  B32.BiasedScale v quarter = B32.BiasedScale v' quarter.
Proof. vm_compute. split; reflexivity. Qed.













(** * Further properties of the Hysteretic Gate *)

Section GateFurtherProperties.

Context {SM : OnePoleSmoother1}.

Lemma count_changes_app (g : HysteresisSmoother) (xs ys : list float) :
  count_changes g (xs ++ ys) =
  (count_changes g xs + count_changes (run g xs) ys)%nat.
Proof.
  revert g. induction xs as [| x xs IH]; intros g; [reflexivity |].
  simpl. rewrite IH. change (run g (x :: xs)) with (run (fst (Process g x)) xs).
  lia.
Qed.

(** Every change of the flag uses up [min_dwell] calls of its own. *)
Lemma count_changes_bound (g : HysteresisSmoother) (xs : list float) :
  gate_inv g ->
  (Z.of_nat (count_changes g xs) * min_dwell g + counter_ (run g xs)
   <= Z.of_nat (length xs) + counter_ g)%Z.
Proof.
  intros Hinv. induction xs as [| x xs IH] using rev_ind; [simpl; lia |].
  pose proof (run_inv g xs Hinv) as Hg.
  pose proof (Process_cases (run g xs) x Hg) as Hcases. cbv zeta in Hcases.
  destruct Hg as [Hhs [Hc Hz]].
  rewrite count_changes_app, length_app, run_snoc. simpl count_changes.
  simpl length. rewrite Process_output.
  rewrite run_hysteresis_samples in *.
  unfold min_dwell in *.
  destruct Hcases as [(_ & E) | [(Hne & Hp & Hge & E) | [(_ & _ & _ & E) | (_ & _ & E)]]];
    apply gate_flags_eq in E as (Ecur & Epend & Ecnt); rewrite Ecur, Ecnt.
  - rewrite eqb_reflx. lia.
  - assert (Hc1 : (1 <= counter_ (run g xs))%Z).
    { destruct (Z.eq_dec (counter_ (run g xs)) 0) as [Z0 | NZ]; [| lia].
      exfalso. apply Hne. rewrite Hp. apply Hz. exact Z0. }
    destruct (Bool.eqb (Process_target (run g xs) x)
                (current_flag_ (run g xs))) eqn:Eb.
    + apply eqb_prop in Eb. contradiction.
    + nia.
  - rewrite eqb_reflx. lia.
  - rewrite eqb_reflx. lia.
Qed.

Lemma count_changes_zero (g : HysteresisSmoother) (xs : list float) :
  count_changes g xs = 0%nat ->
  current_flag_ (run g xs) = current_flag_ g /\
  Forall (eq (current_flag_ g)) (outputs g xs).
Proof.
  revert g. induction xs as [| x xs IH]; intros g H; [split; [reflexivity | constructor] |].
  simpl in H.
  destruct (Bool.eqb (snd (Process g x)) (current_flag_ g)) eqn:E;
    [| discriminate].
  apply eqb_prop in E. simpl in H.
  destruct (IH _ H) as [Hrun Hout].
  rewrite <- Process_output, E in Hrun, Hout.
  change (run g (x :: xs)) with (run (fst (Process g x)) xs).
  split; [exact Hrun |]. simpl. constructor; [symmetry; exact E | exact Hout].
Qed.

(** X7.  The gate changes its flag at most once per [min_dwell] calls,
    where [min_dwell] is [hysteresis_samples_] but at least 2: over any
    run from the initial state, the number of calls that change the flag
    times [min_dwell], plus the dwell count in progress, is at most the
    number of calls.  In particular no call among the first
    [min_dwell - 1] changes the flag, whatever the input. *)
Theorem gate_change_rate :
  forall (sample_rate smoothing_time_ms hysteresis_time_ms : float)
         (xs : list float),
    let g0 := HysteresisSmoother_new sample_rate smoothing_time_ms
                hysteresis_time_ms in
    (Z.of_nat (count_changes g0 xs) * min_dwell g0 + counter_ (run g0 xs)
     <= Z.of_nat (length xs))%Z /\
    ((Z.of_nat (length xs) < min_dwell g0)%Z ->
     current_flag_ (run g0 xs) = false /\
     Forall (eq false) (outputs g0 xs)).
Proof.
  intros sample_rate smoothing_time_ms hysteresis_time_ms xs g0.
  pose proof (count_changes_bound g0 xs (new_inv _ _ _)) as Hb.
  change (counter_ g0) with 0%Z in Hb.
  split; [lia |].
  intros Hlt.
  pose proof (run_inv g0 xs (new_inv _ _ _)) as [_ [Hc _]].
  assert (H0 : count_changes g0 xs = 0%nat).
  { unfold min_dwell in *. destruct (count_changes g0 xs); [reflexivity | nia]. }
  exact (count_changes_zero g0 xs H0).
Qed.

(** After one call or more with the same thresholded input [b], the gate
    has either settled on [b] or is counting toward it. *)
Lemma stable_input_progress (hs : Z) (b : bool) (n : nat)
    (st : bool * bool * Z) :
  (0 <= hs <= SIZE_MAX)%Z -> flags_inv hs st ->
  let st' := fold_left (fun st t => apply_hysteresis hs t st)
               (repeat b (S n)) st in
  flags_inv hs st' /\
  (st' = (b, b, 0%Z) \/
   exists c, st' = (negb b, b, c) /\ (Z.of_nat (S n) <= c)%Z).
Proof.
  intros Hhs Hst. induction n as [| n IH].
  - cbn [repeat fold_left]. destruct st as [[cur pend] c].
    pose proof (apply_hysteresis_inv hs b _ Hhs Hst) as Hinv'.
    split; [exact Hinv' |].
    destruct (apply_hysteresis_cases hs b cur pend c Hhs Hst)
      as [(E1 & E) | [(Hne & Hp & Hge & E) | [(Hne & Hp & Hlt & E) | (Hne & Hp & E)]]];
      cbv zeta in E; rewrite E.
    + left. subst. reflexivity.
    + left. subst. reflexivity.
    + right. exists (c + 1)%Z. destruct Hst as [Hc Hz].
      assert (c <> 0%Z) by (intros Z0; apply Hne; rewrite Hp; apply Hz, Z0).
      split; [| lia]. subst pend. destruct b, cur; try reflexivity; congruence.
    + right. exists 1%Z. split; [| lia].
      destruct b, cur; try reflexivity; congruence.
  - cbv zeta in IH |- *.
    replace (repeat b (S (S n))) with (repeat b (S n) ++ [b])
      by (rewrite <- repeat_cons; reflexivity).
    rewrite fold_left_app.
    destruct IH as [Hinv [E | (c & E & Hc)]]; rewrite E in *; cbn [fold_left].
    + split; [apply apply_hysteresis_inv; assumption |].
      left. unfold apply_hysteresis. rewrite eqb_reflx. reflexivity.
    + pose proof (apply_hysteresis_inv hs b _ Hhs Hinv) as Hinv'.
      split; [exact Hinv' |].
      destruct (apply_hysteresis_cases hs b (negb b) b c Hhs Hinv)
        as [(E1 & E') | [(_ & _ & _ & E') | [(_ & _ & _ & E') | (_ & Hp & E')]]];
        cbv zeta in E'.
      * destruct b; discriminate.
      * left. rewrite E'. reflexivity.
      * right. exists (c + 1)%Z. rewrite E'. split; [reflexivity | lia].
      * congruence.
Qed.

(** X8.  The gate follows a stable input: in any state reached from the
    initial state, once the thresholded input has kept one value [b] for
    [min_dwell] consecutive calls or more, the flag is [b], no candidate
    is pending and the counter is 0. *)
Theorem gate_follows_stable_input :
  forall (sample_rate smoothing_time_ms hysteresis_time_ms : float)
         (pre xs : list float) (b : bool),
    let g := run (HysteresisSmoother_new sample_rate smoothing_time_ms
                    hysteresis_time_ms) pre in
    Forall (eq b) (targets g xs) ->
    (min_dwell g <= Z.of_nat (length xs))%Z ->
    gate_flags (run g xs) = (b, b, 0%Z).
Proof.
  intros sample_rate smoothing_time_ms hysteresis_time_ms pre xs b g Hall Hlen.
  pose proof (run_inv _ pre (new_inv sample_rate smoothing_time_ms
                               hysteresis_time_ms)) as [Hhs Hf].
  fold g in Hhs, Hf.
  rewrite run_flags, (Forall_eq_repeat _ _ Hall), targets_length.
  unfold min_dwell in Hlen.
  destruct (length xs) as [| n] eqn:En; [simpl in Hlen; lia |].
  destruct (stable_input_progress (hysteresis_samples_ g) b n (gate_flags g)
              Hhs Hf) as [Hinv [E | (c & E & Hc)]]; cbv zeta in *.
  - exact E.
  - rewrite E in Hinv. destruct Hinv as [Hb _]. exfalso. lia.
Qed.

Lemma Process_config (g : HysteresisSmoother) (x : float) :
  sample_rate_ (fst (Process g x)) = sample_rate_ g /\
  hysteresis_time_ms_ (fst (Process g x)) = hysteresis_time_ms_ g.
Proof.
  unfold Process.
  destruct (smoother1_Process (smoother_ g) x) as [sm smoothed]. simpl.
  destruct (negb _); [| split; reflexivity].
  destruct (Bool.eqb _ _); [| split; reflexivity].
  simpl. destruct (_ >=? _)%Z; split; reflexivity.
Qed.

Lemma run_config (g : HysteresisSmoother) (xs : list float) :
  sample_rate_ (run g xs) = sample_rate_ g /\
  hysteresis_time_ms_ (run g xs) = hysteresis_time_ms_ g.
Proof.
  revert g. induction xs as [| x xs IH]; intros g; [split; reflexivity |].
  change (run g (x :: xs)) with (run (fst (Process g x)) xs).
  destruct (IH (fst (Process g x))) as [H1 H2].
  destruct (Process_config g x) as [P1 P2].
  rewrite H1, H2, P1, P2. split; reflexivity.
Qed.

(** X9.  [counter_++] never wraps around and the configuration never
    moves: in every state reached from the initial state, whatever the
    dwell, the counter is at most [max 1 (hysteresis_samples_ - 1)], below
    [SIZE_MAX], and the sample rate, the dwell time and
    [hysteresis_samples_] are those the constructor stored. *)
Theorem gate_counter_never_wraps :
  forall (sample_rate smoothing_time_ms hysteresis_time_ms : float)
         (xs : list float),
    let g0 := HysteresisSmoother_new sample_rate smoothing_time_ms
                hysteresis_time_ms in
    let g := run g0 xs in
    (0 <= counter_ g <= Z.max 1 (hysteresis_samples_ g - 1))%Z /\
    (counter_ g < SIZE_MAX)%Z /\
    size_t_succ (counter_ g) = (counter_ g + 1)%Z /\
    hysteresis_samples_ g = hysteresis_samples_ g0 /\
    sample_rate_ g = sample_rate /\
    hysteresis_time_ms_ g = hysteresis_time_ms.
Proof.
  intros sample_rate smoothing_time_ms hysteresis_time_ms xs g0 g.
  destruct (run_inv g0 xs (new_inv _ _ _)) as [Hhs [Hc _]]. fold g in Hhs, Hc.
  assert (Hlt : (counter_ g < SIZE_MAX)%Z) by (unfold SIZE_MAX in *; lia).
  split; [exact Hc |]. split; [exact Hlt |].
  split; [apply size_t_succ_small; lia |].
  split; [apply run_hysteresis_samples |].
  apply run_config.
Qed.

End GateFurtherProperties.

Lemma gate_change_rate_witness :
  let g0 := @HysteresisSmoother_new passthrough_smoother 1000 400 3 in
  current_flag_ (run g0 [1; 1]) = false /\
  Forall (eq false) (outputs g0 [1; 1]).
Proof.
  intros g0.
  destruct (gate_change_rate (SM := passthrough_smoother) 1000 400 3 [1; 1])
    as [_ H].
  apply H. unfold min_dwell.
  rewrite (dwell_three passthrough_smoother). simpl. lia.
Defined.

Lemma gate_follows_stable_input_witness :
  gate_flags (run (run (@HysteresisSmoother_new passthrough_smoother 1000 400 3)
                     [1; 1]) [0; 0; 0]) = (false, false, 0%Z).
Proof.
  apply (gate_follows_stable_input (SM := passthrough_smoother)
           1000 400 3 [1; 1] [0; 0; 0] false).
  - rewrite passthrough_targets. simpl. rewrite thr_zero. repeat constructor.
  - unfold min_dwell. rewrite run_hysteresis_samples, dwell_three. simpl. lia.
Defined.

(** * Further properties of the Effect Graph *)

Lemma single_mode_table (value : float) :
  MapToSeries value [2; 5; 7; 10; 12] = single_mode_transpose value.
Proof.
  rewrite MapToSeries_at_index by discriminate.
  simpl length. change (Z.of_nat 5) with 5%Z.
  pose proof (MapToSeries_index_bounds value 5 ltac:(lia)) as Hk.
  pose proof (MapToSeries_index_bucket value 5
                ltac:(unfold SIZE_MAX; simpl; lia)) as [Hlo Hhi].
  cbv zeta in Hlo, Hhi.
  unfold single_mode_transpose, float_lt.
  assert (Hc : forall t, 0 < t < 1 ->
            (fmaxf 0 (fminf 1 value) < t <-> value < t)).
  { intros t Ht. unfold fmaxf, fminf, Rmax, Rmin.
    repeat destruct Rle_dec; split; lra. }
  pose proof (Hc (1 / 5) ltac:(lra)) as H1.
  pose proof (Hc (2 / 5) ltac:(lra)) as H2.
  pose proof (Hc (3 / 5) ltac:(lra)) as H3.
  pose proof (Hc (4 / 5) ltac:(lra)) as H4.
  pose proof (clamp01_bounds value) as Hb.
  set (v := fmaxf 0 (fminf 1 value)) in *.
  set (k := MapToSeries_index value 5) in *.
  assert (Hcases : k = 0%Z \/ k = 1%Z \/ k = 2%Z \/ k = 3%Z \/ k = 4%Z) by lia.
  clearbody k v.
  destruct Hcases as [-> | [-> | [-> | [-> | ->]]]];
    unfold at_index; simpl;
    repeat destruct Rlt_dec; try reflexivity; exfalso;
    destruct Hhi as [Hhi | [Hhi Hk4]]; try discriminate; lra.
Qed.

Section AppFurtherProperties.

Context {SM : OnePoleSmoother1} {EXT : Collaborators}.

(** What one pass leaves behind: the stored vector is untouched and the
    gate has taken one call on the pass's gate input. *)
Lemma ProcessInline_frame (a a' : BettyAudioApp) (pitch_bias : float)
    (x out : stereosample_t) :
  ProcessInline a pitch_bias x = Some (a', out) ->
  neuralNetOutputs a' = neuralNetOutputs a /\
  (exists s, pass_gate_input a pitch_bias = Some s /\
             smoother_pitchshift_switch a' =
             fst (Process (smoother_pitchshift_switch a) s)).
Proof.
  unfold ProcessInline, pass_gate_input, pass_params.
  destruct (smoother1_Process (pitchbias_smoother a) pitch_bias)
    as [pbs raw_pitch_bias].
  destruct (read_params (neuralNetOutputs a)) as [raw |]; [| discriminate].
  simpl option_map.
  destruct (smootherN_Process (smoother a) raw) as [sm p]. simpl snd.
  destruct (Process (smoother_pitchshift_switch a) _) as [gate sw] eqn:Eg.
  destruct (pitch_mode sw p (pitchshifter_ a) (pitchshifter2_ a))
    as [[[ps1 ps2] m1] m2].
  destruct (signal_path x (dl_ a) _ ps1 ps2 m1 m2 (dcb a))
    as [[[[[dl w] ps1'] ps2'] dc] o].
  intros E. inversion E; subst a' out. clear E. simpl.
  split; [reflexivity |].
  eexists; split; [reflexivity | rewrite Eg; reflexivity].
Qed.

Lemma app_run_succeeds (a : BettyAudioApp) (calls : list AppCall) :
  (kN_Params <= length (neuralNetOutputs a))%nat ->
  params_long_enough calls ->
  exists a' outs,
    app_run a calls = Some (a', outs) /\
    length outs = count_samples calls /\
    neuralNetOutputs a' = last_params (neuralNetOutputs a) calls.
Proof.
  revert a. induction calls as [| c calls IH]; intros a Hlen Hall.
  - exists a, []. repeat split.
  - inversion Hall as [| ? ? Hc Hrest]; subst.
    destruct c as [params | pitch_bias x].
    + destruct (IH (ProcessParams a params) Hc Hrest)
        as (a' & outs & E & Hl & Hp).
      exists a', outs. repeat split; assumption.
    + destruct (ProcessInline a pitch_bias x) as [[a1 out] |] eqn:E1.
      * destruct (ProcessInline_frame _ _ _ _ _ E1) as (Hn & _).
        destruct (IH a1 ltac:(rewrite Hn; exact Hlen) Hrest)
          as (a' & outs & E & Hl & Hp).
        exists a', (out :: outs). simpl app_run. rewrite E1, E.
        split; [reflexivity |].
        split; [unfold count_samples in *; simpl; rewrite Hl; reflexivity |].
        rewrite Hp, Hn; reflexivity.
      * apply ProcessInline_None in E1. lia.
Qed.

(** X10.  Out-of-bounds reads are excluded for a whole run by the length
    of the vectors alone: when the stored vector and every vector later
    handed to [ProcessParams] hold [kN_Params] floats or more, every pass
    of any sequence of calls succeeds, there is one output sample per
    pass, and the vector stored at the end is the last one handed over,
    untouched by the passes. *)
Theorem app_run_in_bounds :
  forall (a : BettyAudioApp) (calls : list AppCall),
    (kN_Params <= length (neuralNetOutputs a))%nat ->
    params_long_enough calls ->
    exists a' outs,
      app_run a calls = Some (a', outs) /\
      length outs = count_samples calls /\
      neuralNetOutputs a' = last_params (neuralNetOutputs a) calls.
Proof. exact app_run_succeeds. Qed.

Lemma app_run_gate (a a' : BettyAudioApp) (calls : list AppCall)
    (outs : list stereosample_t) :
  app_run a calls = Some (a', outs) ->
  smoother_pitchshift_switch a' =
  run (smoother_pitchshift_switch a) (gate_inputs a calls) /\
  length (gate_inputs a calls) = count_samples calls.
Proof.
  revert a outs. induction calls as [| c calls IH]; intros a outs E.
  - simpl in E. inversion E. split; reflexivity.
  - destruct c as [params | pitch_bias x]; simpl in E.
    + destruct (IH _ _ E) as [Hg Hl]. split; assumption.
    + destruct (ProcessInline a pitch_bias x) as [[a1 out] |] eqn:E1;
        [| discriminate].
      destruct (app_run a1 calls) as [[a2 outs2] |] eqn:E2; [| discriminate].
      inversion E; subst a2 outs. clear E.
      destruct (ProcessInline_frame _ _ _ _ _ E1) as (_ & (s & Hs & Hg1)).
      destruct (IH _ _ E2) as [Hg Hl].
      simpl gate_inputs. rewrite E1, Hs.
      change (run (smoother_pitchshift_switch a) (s :: gate_inputs a1 calls))
        with (run (fst (Process (smoother_pitchshift_switch a) s))
                (gate_inputs a1 calls)).
      rewrite <- Hg1. split; [exact Hg |].
      unfold count_samples in *. simpl. rewrite Hl. reflexivity.
Qed.

Lemma app_run_None (a : BettyAudioApp) (calls : list AppCall) :
  app_run a calls = None ->
  ~ ((kN_Params <= length (neuralNetOutputs a))%nat /\
     params_long_enough calls).
Proof.
  intros E [Hlen Hall].
  destruct (app_run_succeeds a calls Hlen Hall) as (a' & outs & E' & _).
  congruence.
Qed.

(** X11.  The mode of the effect is debounced at the level of the whole
    application.  Over any sequence of calls from the constructed
    application the gate has taken exactly one call per pass; the number
    of passes that changed the mode, times [min_dwell], is at most the
    number of passes; and while fewer than [min_dwell] passes have run the
    gate's flag is still [false] (the dual-shifter mode), whatever the
    parameters and the bias.  (A run fails only on a vector shorter than
    [kN_Params].) *)
Theorem app_mode_debounced :
  forall calls : list AppCall,
    let a0 := BettyAudioApp_new in
    let g0 := smoother_pitchshift_switch a0 in
    match app_run a0 calls with
    | Some (a', _) =>
        smoother_pitchshift_switch a' = run g0 (gate_inputs a0 calls) /\
        length (gate_inputs a0 calls) = count_samples calls /\
        (Z.of_nat (count_changes g0 (gate_inputs a0 calls)) * min_dwell g0
         <= Z.of_nat (count_samples calls))%Z /\
        ((Z.of_nat (count_samples calls) < min_dwell g0)%Z ->
         current_flag_ (smoother_pitchshift_switch a') = false)
    | None => ~ params_long_enough calls
    end.
Proof.
  intros calls a0 g0.
  destruct (app_run a0 calls) as [[a' outs] |] eqn:E.
  - destruct (app_run_gate _ _ _ _ E) as [Hg Hl]. fold g0 in Hg.
    assert (Hinv : gate_inv g0) by apply new_inv.
    pose proof (count_changes_bound g0 (gate_inputs a0 calls) Hinv) as Hb.
    change (counter_ g0) with 0%Z in Hb. rewrite Hl in Hb.
    pose proof (run_inv g0 (gate_inputs a0 calls) Hinv) as [_ [Hc _]].
    split; [exact Hg |]. split; [exact Hl |]. split; [lia |].
    intros Hlt. rewrite Hg.
    assert (H0 : count_changes g0 (gate_inputs a0 calls) = 0%nat).
    { unfold min_dwell in *.
      destruct (count_changes g0 (gate_inputs a0 calls)); [reflexivity | nia]. }
    apply (count_changes_zero g0 _ H0).
  - intros Hall. apply (app_run_None a0 calls E). split; [| exact Hall].
    simpl. unfold kN_Params. simpl. lia.
Qed.

(** X12.  In the single-shifter mode the transposition is a five-step
    table of the smoothed shift parameter, with steps at 0.2, 0.4, 0.6
    and 0.8 and out-of-range parameters on the end steps: 2, 5, 7, 10 or
    12 semitones, within the -12 to +12 of the comment at line 158. *)
Theorem single_mode_transposition :
  forall (p : ParamDef) (ps1 ps2 : PitchShifter),
    pitch_mode true p ps1 ps2 =
    (PitchShifter_SetTransposition ps1 (single_mode_transpose (shift p)),
     ps2, 1, 0) /\
    In (single_mode_transpose (shift p)) [2; 5; 7; 10; 12] /\
    -12 <= single_mode_transpose (shift p) <= 12.
Proof.
  intros p ps1 ps2.
  split; [unfold pitch_mode; rewrite single_mode_table; reflexivity |].
  unfold single_mode_transpose, float_lt.
  destruct (Rlt_dec (shift p) (1 / 5)); [simpl; split; [tauto | lra] |].
  destruct (Rlt_dec (shift p) (2 / 5)); [simpl; split; [tauto | lra] |].
  destruct (Rlt_dec (shift p) (3 / 5)); [simpl; split; [tauto | lra] |].
  destruct (Rlt_dec (shift p) (4 / 5)); simpl; (split; [tauto | lra]).
Qed.

(** X13.  The delay tap lies inside the delay line, two samples before
    its end, as soon as the line holds two samples: for a sample rate
    from 2 up to [SIZE_MAX], [kDLineLength] is the sample rate rounded
    down and [kDLineTap = kDLineLength - 2] without wrap-around.  Below 2
    samples the subtraction wraps and the tap is past the line. *)
Theorem delay_tap_in_line :
  (2 <= kSampleRate -> kSampleRate < IZR SIZE_MAX + 1 ->
   kDLineLength = Zfloor kSampleRate /\
   kDLineTap = (kDLineLength - 2)%Z /\
   (0 <= kDLineTap < kDLineLength)%Z) /\
  (0 <= kSampleRate < 2 -> (kDLineLength <= kDLineTap)%Z).
Proof.
  unfold kDLineTap, kDLineLength, kDelaySeconds.
  replace (1 * kSampleRate) with kSampleRate by ring.
  pose proof (Zfloor_bound kSampleRate) as Hf.
  split.
  - intros H2 Hmax.
    assert (H2z : (2 <= Zfloor kSampleRate)%Z) by (apply Zfloor_lub; simpl; lra).
    assert (Hmz : (Zfloor kSampleRate <= SIZE_MAX)%Z).
    { apply Z.lt_succ_r. apply lt_IZR. rewrite succ_IZR. lra. }
    rewrite (size_t_of_float_floor kSampleRate (Zfloor kSampleRate))
      by (try lia; exact Hf).
    split; [reflexivity |].
    rewrite Z.mod_small by (unfold SIZE_MAX in *; lia).
    split; [reflexivity | lia].
  - intros H.
    assert (H0z : (0 <= Zfloor kSampleRate)%Z) by (apply Zfloor_lub; simpl; lra).
    assert (H1z : (Zfloor kSampleRate < 2)%Z) by (apply lt_IZR; lra).
    rewrite (size_t_of_float_floor kSampleRate (Zfloor kSampleRate))
      by (try (unfold SIZE_MAX; lia); exact Hf).
    unfold SIZE_MAX.
    assert (Hc : Zfloor kSampleRate = 0%Z \/ Zfloor kSampleRate = 1%Z) by lia.
    destruct Hc as [-> | ->]; vm_compute; discriminate.
Qed.

End AppFurtherProperties.

Lemma app_run_in_bounds_witness :
  exists a' outs,
    app_run (@BettyAudioApp_new passthrough_smoother demo_collaborators)
      [CallProcessInline 0 (mkStereo 0 0);
       CallProcessParams [1; 1 / 2; 0; 0; 0; 0; 0; 9];
       CallProcessInline 1 (mkStereo 0 0)] = Some (a', outs) /\
    length outs = 2%nat /\
    neuralNetOutputs a' = [1; 1 / 2; 0; 0; 0; 0; 0; 9].
Proof.
  assert (Hlen : (kN_Params <=
                  length (neuralNetOutputs
                            (@BettyAudioApp_new passthrough_smoother
                               demo_collaborators)))%nat)
    by (simpl; unfold kN_Params; lia).
  assert (Hall : params_long_enough
                   [CallProcessInline 0 (mkStereo 0 0);
                    CallProcessParams [1; 1 / 2; 0; 0; 0; 0; 0; 9];
                    CallProcessInline 1 (mkStereo 0 0)]).
  { unfold params_long_enough, kN_Params. repeat constructor. }
  destruct (app_run_in_bounds (SM := passthrough_smoother)
              (EXT := demo_collaborators) BettyAudioApp_new _ Hlen Hall)
    as (a' & outs & E & Hl & Hp).
  exists a', outs. split; [exact E |]. split; [exact Hl | exact Hp].
Defined.

Lemma delay_tap_in_line_witness :
  @kDLineTap demo_collaborators = 47998%Z.
Proof.
  destruct (delay_tap_in_line (EXT := demo_collaborators)) as [H _].
  assert (H2 : 2 <= @kSampleRate demo_collaborators) by (simpl; lra).
  assert (Hm : @kSampleRate demo_collaborators < IZR SIZE_MAX + 1)
    by (unfold SIZE_MAX; simpl; lra).
  destruct (H H2 Hm) as (Hl & Ht & _).
  rewrite Ht, Hl. simpl kSampleRate.
  rewrite (Zfloor_eq 48000 48000) by lra. reflexivity.
Defined.
